(** * Merge planner of feishu-time-merger: a shallow embedding and its properties

    The planner lives in [utils/mergeLogic.ts].  The repository carries two
    revisions of [calculateMerges]: the first one merges on numeric
    continuity alone (module [V1]); the current one adds the same-day check
    and [finalizeProposal] (module [V2]).

    Modelling choices.
    - Timestamps are JS numbers holding integers; they are modelled as
      [Z].  All decisions of the code (comparisons, [Math.abs], [Math.max],
      the sign of [a.start - b.start]) agree with [Z] arithmetic on
      integral doubles.
    - A duration is a JS number that is either [NaN] - what [Number(cell)]
      gives for an empty or non-numeric cell - or an integer; sums of
      durations are taken in [Z], as the code's additions are on integral
      doubles below 2^53.
    - [groups] is a plain JS object used as a map.  It is modelled as an
      association list in insertion order, together with the property names
      it inherits from [Object.prototype]: reading one of those through
      [groups[key]] yields a truthy non-array value, so the following
      [push] raises a [TypeError].
    - [Object.values] enumerates array-index keys first, in ascending
      numeric order, then the other keys in insertion order.
    - [Array.prototype.sort] is stable; with the comparator
      [(a, b) => a.start - b.start] it is the stable ascending sort on
      [start], written here as an insertion sort.
    - [new Date(t).toDateString()] depends on the host time zone.  The
      offset of local time from UTC at instant [t] is the parameter
      [LocalTZA]; out-of-range instants give the string "Invalid Date". *)

From Stdlib Require Import ZArith List String Ascii Bool Lia.
From Stdlib Require Import Sorted Permutation.
Import ListNotations.

Local Open Scope string_scope.
Local Open Scope list_scope.
Local Open Scope Z_scope.

(** ** The JavaScript built-ins the planner relies on *)

Module JS.

(** A call either returns normally or throws. *)
Inductive JSError : Type := TypeError.

Inductive Completion (A : Type) : Type :=
| Normal (a : A)
| Throw (e : JSError).

Arguments Normal {A} a.
Arguments Throw {A} e.

(** A number as a duration cell yields it: [NaN] or an integral value. *)
Inductive JSNumber : Type :=
| NaN
| Num (value : Z).

(** [Array.prototype.join] on an array of strings. *)
Definition join (sep : string) (xs : list string) : string :=
  String.concat sep xs.

(** Property names every plain object inherits from [Object.prototype]
    (the standard ones and those of Annex B).  All of them read as truthy
    values that have no [push] method. *)
Definition objectPrototypeKeys : list string :=
  [ "constructor"; "hasOwnProperty"; "isPrototypeOf"; "propertyIsEnumerable";
    "toLocaleString"; "toString"; "valueOf"; "__proto__";
    "__defineGetter__"; "__defineSetter__";
    "__lookupGetter__"; "__lookupSetter__" ].

Definition inherited (key : string) : bool :=
  existsb (String.eqb key) objectPrototypeKeys.

(** Decimal value of a string of digits. *)
Fixpoint digitsValue (s : string) (acc : N) : option N :=
  match s with
  | EmptyString => Some acc
  | String c s' =>
      let n := N_of_ascii c in
      if (48 <=? n)%N && (n <=? 57)%N
      then digitsValue s' (10 * acc + (n - 48))%N
      else None
  end.

(** A property key is an array index when it is the canonical decimal
    form of an integer below 2^32 - 1. *)
Definition arrayIndex (s : string) : option N :=
  match s with
  | EmptyString => None
  | String c rest =>
      if Ascii.eqb c "0"
      then match rest with EmptyString => Some 0%N | _ => None end
      else match digitsValue s 0 with
           | Some n => if (n <? 4294967295)%N then Some n else None
           | None => None
           end
  end.

Section ObjectAsMap.

Variable V : Type.

(** Own properties of the object, in creation order. *)
Definition Obj : Type := list (string * V).

Fixpoint ownLookup (o : Obj) (key : string) : option V :=
  match o with
  | [] => None
  | (k, v) :: o' => if String.eqb k key then Some v else ownLookup o' key
  end.

(** [o[key] = v] for a key that is already an own property: the value is
    replaced in place, the creation order is kept. *)
Fixpoint ownUpdate (o : Obj) (key : string) (v : V) : Obj :=
  match o with
  | [] => []
  | (k, w) :: o' =>
      if String.eqb k key then (k, v) :: o' else (k, w) :: ownUpdate o' key v
  end.

(** Insertion of an index key among the index keys, ascending. *)
Fixpoint insertIndexed (e : N * V) (l : list (N * V)) : list (N * V) :=
  match l with
  | [] => [e]
  | e' :: l' =>
      if (fst e <=? fst e')%N then e :: l else e' :: insertIndexed e l'
  end.

Fixpoint indexedProps (o : Obj) : list (N * V) :=
  match o with
  | [] => []
  | (k, v) :: o' =>
      match arrayIndex k with
      | Some n => insertIndexed (n, v) (indexedProps o')
      | None => indexedProps o'
      end
  end.

Fixpoint namedProps (o : Obj) : list V :=
  match o with
  | [] => []
  | (k, v) :: o' =>
      match arrayIndex k with
      | Some _ => namedProps o'
      | None => v :: namedProps o'
      end
  end.

(** [Object.values(o)]. *)
Definition objectValues (o : Obj) : list V :=
  map snd (indexedProps o) ++ namedProps o.

End ObjectAsMap.

Arguments ownLookup {V} o key.
Arguments ownUpdate {V} o key v.
Arguments objectValues {V} o.
Arguments indexedProps {V} o.
Arguments namedProps {V} o.
Arguments insertIndexed {V} e l.

Section GroupBy.

Variable R : Type.
Variable keyOf : R -> string.

(** One call of the [records.forEach] callback:
    [if (!groups[key]) groups[key] = []; groups[key].push(r)]. *)
Definition groupStep (groups : Obj (list R)) (r : R)
  : Completion (Obj (list R)) :=
  let key := keyOf r in
  match ownLookup groups key with
  | Some bucket => Normal (ownUpdate groups key (bucket ++ [r]))
  | None =>
      if inherited key then Throw TypeError
      else Normal (groups ++ [(key, [r])])
  end.

Fixpoint groupAll (records : list R) (groups : Obj (list R))
  : Completion (Obj (list R)) :=
  match records with
  | [] => Normal groups
  | r :: rest =>
      match groupStep groups r with
      | Normal groups' => groupAll rest groups'
      | Throw e => Throw e
      end
  end.

End GroupBy.

Arguments groupStep {R} keyOf groups r.
Arguments groupAll {R} keyOf records groups.

Section SortByStart.

Variable R : Type.
Variable startOf : R -> Z.

(** [x] precedes every element of [l] in the input, so it goes before the
    first element whose start is not smaller. *)
Fixpoint insertByStart (x : R) (l : list R) : list R :=
  match l with
  | [] => [x]
  | y :: l' =>
      if startOf x <=? startOf y then x :: l else y :: insertByStart x l'
  end.

(** [arr.sort((a, b) => a.start - b.start)]. *)
Fixpoint sortByStart (l : list R) : list R :=
  match l with
  | [] => []
  | x :: l' => insertByStart x (sortByStart l')
  end.

End SortByStart.

Arguments insertByStart {R} startOf x l.
Arguments sortByStart {R} startOf l.

(** The value of [new Date(t).toDateString()], up to the one-to-one
    rendering of a calendar day as text. *)
Inductive DateString : Type :=
| InvalidDate
| CalendarDay (day : Z).

Definition DateString_eqb (a b : DateString) : bool :=
  match a, b with
  | InvalidDate, InvalidDate => true
  | CalendarDay d, CalendarDay e => d =? e
  | _, _ => false
  end.

Definition msPerDay : Z := 86400000.

(** [TimeClip]: a time value is valid within 8.64e15 ms of the epoch. *)
Definition validTime (t : Z) : bool := Z.abs t <=? 8640000000000000.

Section LocalTime.

Variable LocalTZA : Z -> Z.

Definition LocalTime (t : Z) : Z := t + LocalTZA t.

Definition toDateString (t : Z) : DateString :=
  if validTime t then CalendarDay (LocalTime t / msPerDay) else InvalidDate.

(** Local calendar day and milliseconds elapsed in that day. *)
Definition localClock (t : Z) : option (Z * Z) :=
  if validTime t
  then Some (LocalTime t / msPerDay, LocalTime t mod msPerDay)
  else None.

End LocalTime.

(** A host whose local time is a fixed offset from UTC. *)
Definition fixedZone (offsetMs : Z) : Z -> Z := fun _ => offsetMs.

End JS.

Import JS.

(** ** First revision of [mergeLogic.ts]: numeric continuity only *)

Module V1.

Record IRecord : Type := {
  id : string;
  start : Z;
  end_ : Z;
  groupKeys : list string
}.

Record MergeProposal : Type := {
  baseRecordId : string;
  newStart : Z;
  newEnd : Z;
  recordsToDelete : list string;
  originalRecords : list IRecord
}.

Definition groupKey (r : IRecord) : string := join "|||" (groupKeys r).

Definition newProposal (record : IRecord) : MergeProposal :=
  {| baseRecordId := id record;
     newStart := start record;
     newEnd := end_ record;
     recordsToDelete := [];
     originalRecords := [record] |}.

Definition absorb (p : MergeProposal) (record : IRecord) : MergeProposal :=
  {| baseRecordId := baseRecordId p;
     newStart := newStart p;
     newEnd := Z.max (newEnd p) (end_ record);
     recordsToDelete := recordsToDelete p ++ [id record];
     originalRecords := originalRecords p ++ [record] |}.

(** [if (p.recordsToDelete.length > 0) proposals.push(p)]. *)
Definition pushIfMerged (proposals : list MergeProposal) (p : MergeProposal)
  : list MergeProposal :=
  if (0 <? List.length (recordsToDelete p))%nat
  then proposals ++ [p]
  else proposals.

Definition LoopState : Type := (list MergeProposal * option MergeProposal)%type.

Definition loopBody (st : LoopState) (record : IRecord) : LoopState :=
  let (proposals, currentProposal) := st in
  match currentProposal with
  | None => (proposals, Some (newProposal record))
  | Some p =>
      if Z.abs (start record - newEnd p) <? 1000
      then (proposals, Some (absorb p record))
      else (pushIfMerged proposals p, Some (newProposal record))
  end.

Definition processGroup (proposals : list MergeProposal)
  (groupRecords : list IRecord) : list MergeProposal :=
  let sorted := sortByStart start groupRecords in
  match sorted with
  | [] => proposals
  | _ :: _ =>
      let (proposals', currentProposal) :=
        fold_left loopBody sorted (proposals, None) in
      match currentProposal with
      | Some p => pushIfMerged proposals' p
      | None => proposals'
      end
  end.

Definition calculateMerges (records : list IRecord)
  : Completion (list MergeProposal) :=
  match groupAll groupKey records [] with
  | Throw e => Throw e
  | Normal groups => Normal (fold_left processGroup (objectValues groups) [])
  end.

End V1.

(** ** Current revision of [mergeLogic.ts] *)

Module V2.

Record IRecord : Type := {
  id : string;
  start : Z;
  end_ : Z;
  groupKeys : list string;
  duration : option JSNumber
}.

Record Validation : Type := {
  originalSum : Z;
  newDuration : Z;
  isValid : bool
}.

Record MergeProposal : Type := {
  baseRecordId : string;
  newStart : Z;
  newEnd : Z;
  recordsToDelete : list string;
  originalRecords : list IRecord;
  validation : option Validation
}.

(** [r.groupKeys.join('|||')]. *)
Definition groupKey (r : IRecord) : string := join "|||" (groupKeys r).

(** [r.duration || 0]: an absent duration, [NaN] and zero are falsy and
    give 0. *)
Definition durationOrZero (r : IRecord) : Z :=
  match duration r with
  | Some (Num d) => if d =? 0 then 0 else d
  | Some NaN => 0
  | None => 0
  end.

(** [r.duration !== undefined]: [NaN] is not [undefined]. *)
Definition hasDuration (r : IRecord) : bool :=
  match duration r with Some _ => true | None => false end.

Definition finalizeProposal (p : MergeProposal) : MergeProposal :=
  let originalSum :=
    fold_left (fun sum r => sum + durationOrZero r) (originalRecords p) 0 in
  let newDurationMs := newEnd p - newStart p in
  if forallb hasDuration (originalRecords p)
  then {| baseRecordId := baseRecordId p;
          newStart := newStart p;
          newEnd := newEnd p;
          recordsToDelete := recordsToDelete p;
          originalRecords := originalRecords p;
          validation := Some {| originalSum := originalSum;
                                newDuration := newDurationMs;
                                isValid := true |} |}
  else p.

(** The object literal that opens a run at [record]. *)
Definition newProposal (record : IRecord) : MergeProposal :=
  {| baseRecordId := id record;
     newStart := start record;
     newEnd := end_ record;
     recordsToDelete := [];
     originalRecords := [record];
     validation := None |}.

(** The three statements of the "Merge!" branch. *)
Definition absorb (p : MergeProposal) (record : IRecord) : MergeProposal :=
  {| baseRecordId := baseRecordId p;
     newStart := newStart p;
     newEnd := Z.max (newEnd p) (end_ record);
     recordsToDelete := recordsToDelete p ++ [id record];
     originalRecords := originalRecords p ++ [record];
     validation := validation p |}.

(** [if (p.recordsToDelete.length > 0) { finalizeProposal(p); proposals.push(p) }]. *)
Definition pushIfMerged (proposals : list MergeProposal) (p : MergeProposal)
  : list MergeProposal :=
  if (0 <? List.length (recordsToDelete p))%nat
  then proposals ++ [finalizeProposal p]
  else proposals.

Section Planner.

Variable LocalTZA : Z -> Z.

Definition isSequential (p : MergeProposal) (record : IRecord) : bool :=
  Z.abs (start record - newEnd p) <? 1000.

Definition isSameDay (p : MergeProposal) (record : IRecord) : bool :=
  DateString_eqb (toDateString LocalTZA (newStart p))
                 (toDateString LocalTZA (start record)).

(** State of the walk over one bucket: the shared [proposals] array and
    [currentProposal]. *)
Definition LoopState : Type := (list MergeProposal * option MergeProposal)%type.

(** One iteration of the [for] loop. *)
Definition loopBody (st : LoopState) (record : IRecord) : LoopState :=
  let (proposals, currentProposal) := st in
  match currentProposal with
  | None => (proposals, Some (newProposal record))
  | Some p =>
      if isSequential p record && isSameDay p record
      then (proposals, Some (absorb p record))
      else (pushIfMerged proposals p, Some (newProposal record))
  end.

(** The callback of [Object.values(groups).forEach]. *)
Definition processGroup (proposals : list MergeProposal)
  (groupRecords : list IRecord) : list MergeProposal :=
  let sorted := sortByStart start groupRecords in
  match sorted with
  | [] => proposals
  | _ :: _ =>
      let (proposals', currentProposal) :=
        fold_left loopBody sorted (proposals, None) in
      match currentProposal with
      | Some p => pushIfMerged proposals' p
      | None => proposals'
      end
  end.

Definition calculateMerges (records : list IRecord)
  : Completion (list MergeProposal) :=
  match groupAll groupKey records [] with
  | Throw e => Throw e
  | Normal groups => Normal (fold_left processGroup (objectValues groups) [])
  end.

End Planner.

(** Sample data: the end-to-end example of the design notes. *)
Definition mkRecord (i : string) (s e : Z) (g : list string)
  (d : option JSNumber)
  : IRecord :=
  {| id := i; start := s; end_ := e; groupKeys := g; duration := d |}.

Definition sampleA := mkRecord "A" 600000 900000 ["X"] None.
Definition sampleB := mkRecord "B" 900500 1200000 ["X"] None.
Definition sampleC := mkRecord "C" 5000000 5300000 ["X"] None.

End V2.

Import V2.

(** ** The caller: [App.tsx]

    The three revisions of [App.tsx] agree on what is modelled here: the
    filter in front of the planner, the loop of [executeMerge] and the
    "Group" and "Count" columns of the preview table.  The table of the
    host is reached through awaited SDK calls; the host is modelled as a
    state machine [perform] that either moves to a new state or rejects the
    call. *)

Module App.

(** A record as [handlePreview] builds it: the start and end cells may be
    missing. *)
Record RawRecord : Type := {
  rawId : string;
  rawStart : option Z;
  rawEnd : option Z;
  rawGroupKeys : list string;
  rawDuration : option JSNumber
}.

(** Truthiness of a cell read as a number: present and not zero. *)
Definition truthy (v : option Z) : bool :=
  match v with
  | Some z => negb (z =? 0)
  | None => false
  end.

(** [records.filter(r => r.start && r.end)], the kept records seen with
    their numbers. *)
Fixpoint validRecords (records : list RawRecord) : list IRecord :=
  match records with
  | [] => []
  | r :: rest =>
      match rawStart r, rawEnd r with
      | Some s, Some e =>
          if negb (s =? 0) && negb (e =? 0)
          then {| id := rawId r; start := s; end_ := e;
                  groupKeys := rawGroupKeys r; duration := rawDuration r |}
               :: validRecords rest
          else validRecords rest
      | _, _ => validRecords rest
      end
  end.

(** The calls [executeMerge] awaits. *)
Inductive SdkCall : Type :=
| GetActiveTable
| SetRecord (recordId : string) (fieldId : string) (value : Z)
| DeleteRecords (recordIds : list string).

(** The part of the component state [executeMerge] writes. *)
Record ExecState : Type := {
  previewOpen : bool;
  merges : list MergeProposal;
  processing : bool
}.

Inductive Message : Type :=
| MessageSuccess (groups : nat)
| MessageError.

(** The calls one iteration of the loop makes when none is rejected. *)
Definition callsFor (endFieldId : string) (p : MergeProposal) : list SdkCall :=
  SetRecord (baseRecordId p) endFieldId (newEnd p)
  :: (if (0 <? List.length (recordsToDelete p))%nat
      then [DeleteRecords (recordsToDelete p)]
      else []).

Definition plan (endFieldId : string) (ps : list MergeProposal)
  : list SdkCall :=
  flat_map (callsFor endFieldId) ps.

(** The record ids a call names. *)
Definition callIds (c : SdkCall) : list string :=
  match c with
  | GetActiveTable => []
  | SetRecord recordId _ _ => [recordId]
  | DeleteRecords recordIds => recordIds
  end.

Section Host.

Variable Host : Type.
Variable perform : Host -> SdkCall -> option Host.

(** [for (const p of merges) { await setRecord; if (...) await deleteRecords }]:
    the host state reached, the calls issued, and whether the loop ran to
    its end. *)
Fixpoint mergeLoop (endFieldId : string) (h : Host) (ps : list MergeProposal)
  : Host * list SdkCall * bool :=
  match ps with
  | [] => (h, [], true)
  | p :: rest =>
      let update := SetRecord (baseRecordId p) endFieldId (newEnd p) in
      match perform h update with
      | None => (h, [update], false)
      | Some h1 =>
          if (0 <? List.length (recordsToDelete p))%nat
          then
            let delete := DeleteRecords (recordsToDelete p) in
            match perform h1 delete with
            | None => (h1, [update; delete], false)
            | Some h2 =>
                let '(h', issued, ok) := mergeLoop endFieldId h2 rest in
                (h', update :: delete :: issued, ok)
            end
          else
            let '(h', issued, ok) := mergeLoop endFieldId h1 rest in
            (h', update :: issued, ok)
      end
  end.

Definition executeMerge (endFieldId : string) (h : Host) (st : ExecState)
  : Host * list SdkCall * ExecState * Message :=
  match perform h GetActiveTable with
  | None =>
      (h, [GetActiveTable],
       {| previewOpen := previewOpen st; merges := merges st;
          processing := false |},
       MessageError)
  | Some h0 =>
      let '(h', issued, ok) := mergeLoop endFieldId h0 (merges st) in
      if ok
      then (h', GetActiveTable :: issued,
            {| previewOpen := false; merges := []; processing := false |},
            MessageSuccess (List.length (merges st)))
      else (h', GetActiveTable :: issued,
            {| previewOpen := previewOpen st; merges := merges st;
               processing := false |},
            MessageError)
  end.

End Host.

(** The "Group" column: [r.originalRecords[0].groupKeys.join(', ')]. *)
Definition renderGroup (r : MergeProposal) : Completion string :=
  match originalRecords r with
  | [] => Throw TypeError
  | first :: _ => Normal (join ", " (groupKeys first))
  end.

(** The "Count" column: [r.originalRecords.length]. *)
Definition renderCount (r : MergeProposal) : nat :=
  List.length (originalRecords r).

(** A host that accepts every call but the deletion of ["B"]. *)
Definition pickyHost (h : nat) (c : SdkCall) : option nat :=
  match c with
  | DeleteRecords ["B"] => None
  | _ => Some (S h)
  end.

Definition sampleRaw : list RawRecord :=
  [ {| rawId := "A"; rawStart := Some 600000; rawEnd := Some 900000;
       rawGroupKeys := ["X"]; rawDuration := None |};
    {| rawId := "N"; rawStart := None; rawEnd := Some 900000;
       rawGroupKeys := ["X"]; rawDuration := None |};
    {| rawId := "Z"; rawStart := Some 900100; rawEnd := Some 0;
       rawGroupKeys := ["X"]; rawDuration := None |};
    {| rawId := "B"; rawStart := Some 900500; rawEnd := Some 1200000;
       rawGroupKeys := ["X"]; rawDuration := None |} ].

End App.

(** ** Vocabulary of the properties *)

(** Chronological order on records. *)
Definition leStart {R : Type} (startOf : R -> Z) (a b : R) : Prop :=
  startOf a <= startOf b.

(** Least and greatest element of a list of numbers. *)
Definition minimum (l : list Z) : option Z :=
  match l with
  | [] => None
  | x :: l' => Some (fold_right Z.min x l')
  end.

Definition maximum (l : list Z) : option Z :=
  match l with
  | [] => None
  | x :: l' => Some (fold_right Z.max x l')
  end.

Definition Zsum (l : list Z) : Z := fold_right Z.add 0 l.

(** The duration values present in a list of records: the numbers, a
    [NaN] not being one. *)
Definition durations (rs : list IRecord) : list Z :=
  flat_map (fun r => match duration r with
                     | Some (Num d) => [d]
                     | _ => []
                     end) rs.

(** Record [b] continues record [a]: the two tests of the loop, taken
    against a run that consists of [a] alone. *)
Definition continuous (LocalTZA : Z -> Z) (a b : IRecord) : bool :=
  (Z.abs (start b - end_ a) <? 1000)
  && DateString_eqb (toDateString LocalTZA (start a))
                    (toDateString LocalTZA (start b)).



(** Running maximum of the ends of a run that starts at [r0]. *)
Definition maxEnd (r0 : IRecord) (rest : list IRecord) : Z :=
  fold_left (fun m r => Z.max m (end_ r)) rest (end_ r0).

(** Shape of the accumulator while it walks the bucket of key [k]. *)
Definition RunShape (k : string) (p : MergeProposal) : Prop :=
  exists r0 rest,
    originalRecords p = r0 :: rest /\
    baseRecordId p = id r0 /\
    newStart p = start r0 /\
    newEnd p = maxEnd r0 rest /\
    recordsToDelete p = map id rest /\
    StronglySorted (leStart start) (r0 :: rest) /\
    Forall (fun r => groupKey r = k) (r0 :: rest) /\
    validation p = None.

(** A proposal emitted for the bucket of key [k]: a finalized run of two
    records or more. *)
Definition EmittedFor (k : string) (q : MergeProposal) : Prop :=
  exists p,
    RunShape k p /\ recordsToDelete p <> [] /\ q = finalizeProposal p.

(** What the grouping loop has built from the records [seen] so far. *)
Definition Grouped {R : Type} (keyOf : R -> string) (seen : list R)
  (groups : Obj (list R)) : Prop :=
  NoDup (map fst groups) /\
  (forall r, In r seen -> In (keyOf r) (map fst groups)) /\
  (forall k b, In (k, b) groups ->
     b = filter (fun r => String.eqb (keyOf r) k) seen /\ b <> []).

(** The text contains the character of the separator. *)
Fixpoint hasBar (s : string) : bool :=
  match s with
  | EmptyString => false
  | String c s' => Ascii.eqb c "|" || hasBar s'
  end.

(** The records held by the accumulator, and those of a list of proposals. *)
Definition held (currentProposal : option MergeProposal) : list IRecord :=
  match currentProposal with
  | Some p => originalRecords p
  | None => []
  end.

Definition contributing (ps : list MergeProposal) : list IRecord :=
  flat_map originalRecords ps.

(** Every id a list of proposals asks the table to keep or to delete. *)
Definition touchedIds (ps : list MergeProposal) : list string :=
  flat_map (fun p => baseRecordId p :: recordsToDelete p) ps.

(** Each record of [rest], in turn, passed both tests of the loop against
    a run opened by [r0] whose greatest end so far is [m]. *)
Fixpoint chained (LocalTZA : Z -> Z) (r0 : IRecord) (m : Z)
  (rest : list IRecord) : Prop :=
  match rest with
  | [] => True
  | r :: rest' =>
      Z.abs (start r - m) < 1000 /\
      toDateString LocalTZA (start r0) = toDateString LocalTZA (start r) /\
      chained LocalTZA r0 (Z.max m (end_ r)) rest'
  end.

(** A run, open or finalized, all of whose absorbed records passed the
    tests. *)
Definition Chain (LocalTZA : Z -> Z) (p : MergeProposal) : Prop :=
  exists r0 rest,
    originalRecords p = r0 :: rest /\
    newStart p = start r0 /\
    newEnd p = maxEnd r0 rest /\
    chained LocalTZA r0 (end_ r0) rest.

(** Proposal [q] is a run of the sorted bucket [sorted]: its records are
    consecutive there, and the record that follows them, if any, fails
    one of the two tests against [q]. *)
Definition RunOf (LocalTZA : Z -> Z) (sorted : list IRecord)
  (q : MergeProposal) : Prop :=
  exists pre post,
    sorted = pre ++ originalRecords q ++ post /\
    match post with
    | [] => True
    | r :: _ => isSequential q r && isSameDay LocalTZA q r = false
    end.

(** The run that opens at [r0] and absorbs all of [rest], before it is
    finalized. *)
Definition wholeRun (r0 : IRecord) (rest : list IRecord) : MergeProposal :=
  {| baseRecordId := id r0;
     newStart := start r0;
     newEnd := maxEnd r0 rest;
     recordsToDelete := map id rest;
     originalRecords := r0 :: rest;
     validation := None |}.

(** Records that follow one another without gap or overlap, each with a
    duration equal to its length. *)
Fixpoint abutting (l : list IRecord) : Prop :=
  match l with
  | [] => True
  | r :: l' =>
      duration r = Some (Num (end_ r - start r)) /\
      start r <= end_ r /\
      match l' with
      | [] => True
      | r' :: _ => start r' = end_ r
      end /\
      abutting l'
  end.

(** Every duration value present in a list of records, [NaN] included,
    and their sum as JS adds numbers: [NaN] as soon as one of them is. *)
Definition durationValues (rs : list IRecord) : list JSNumber :=
  flat_map (fun r => match duration r with Some d => [d] | None => [] end) rs.

Definition jsAdd (a b : JSNumber) : JSNumber :=
  match a, b with
  | Num x, Num y => Num (x + y)
  | _, _ => NaN
  end.

Definition jsSum (l : list JSNumber) : JSNumber := fold_left jsAdd l (Num 0).

(** Two touching rows; the duration cell of the second one is empty, which
    [Number(...)] turns into [NaN]. *)
Definition nanA := mkRecord "A" 600000 900000 ["X"] (Some (Num 5)).
Definition nanB := mkRecord "B" 900500 1200000 ["X"] (Some NaN).

Definition nanRaw : list App.RawRecord :=
  [ {| App.rawId := "A"; App.rawStart := Some 600000;
       App.rawEnd := Some 900000; App.rawGroupKeys := ["X"];
       App.rawDuration := Some (Num 5) |};
    {| App.rawId := "B"; App.rawStart := Some 900500;
       App.rawEnd := Some 1200000; App.rawGroupKeys := ["X"];
       App.rawDuration := Some NaN |} ].

Definition nanProposal : MergeProposal :=
  {| baseRecordId := "A"; newStart := 600000; newEnd := 1200000;
     recordsToDelete := ["B"];
     originalRecords := [nanA; nanB];
     validation := Some {| originalSum := 5; newDuration := 600000;
                           isValid := true |} |}.

(** Sample inputs. *)
Definition sampleRecords : list IRecord := [sampleC; sampleB; sampleA].

Definition sampleProposal : MergeProposal :=
  {| baseRecordId := "A"; newStart := 600000; newEnd := 1200000;
     recordsToDelete := ["B"];
     originalRecords := [sampleA; sampleB];
     validation := None |}.

Definition timedA := mkRecord "A" 600000 900000 ["X"] (Some (Num 5)).
Definition timedB := mkRecord "B" 900500 1200000 ["X"] (Some (Num 7)).

Definition timedProposal : MergeProposal :=
  {| baseRecordId := "A"; newStart := 600000; newEnd := 1200000;
     recordsToDelete := ["B"];
     originalRecords := [timedA; timedB];
     validation := Some {| originalSum := 12; newDuration := 600000;
                           isValid := true |} |}.

(** A short record that lies inside the run it joins. *)
Definition nestedA := mkRecord "A" 1000000 1000900 ["X"] None.
Definition nestedB := mkRecord "B" 1000500 1000600 ["X"] None.

(** Two records whose key sequences differ at every position and still
    join to the same text. *)
Definition collisionA := mkRecord "A" 600000 900000 ["a|||b"; "c"] None.
Definition collisionB := mkRecord "B" 900500 1200000 ["a"; "b|||c"] None.

Definition collisionProposal : MergeProposal :=
  {| baseRecordId := "A"; newStart := 600000; newEnd := 1200000;
     recordsToDelete := ["B"];
     originalRecords := [collisionA; collisionB];
     validation := None |}.

(** A group "Y" of two records an hour apart, next to the sample group. *)
Definition loneY1 := mkRecord "Y1" 600000 900000 ["Y"] None.
Definition loneY2 := mkRecord "Y2" 4500000 4800000 ["Y"] None.
Definition mixedRecords : list IRecord :=
  [loneY2; sampleC; sampleB; loneY1; sampleA].

(** Two records that overlap by half an hour. *)
Definition overlapA := mkRecord "A" 1700000000000 1700003600000 ["X"] None.
Definition overlapB := mkRecord "B" 1700001800000 1700005400000 ["X"] None.

(** Two records 999 ms apart whose group value is the text "constructor". *)
Definition protoA := mkRecord "A" 600000 900000 ["constructor"] None.
Definition protoB := mkRecord "B" 900999 1200000 ["constructor"] None.

Definition protoA1 : V1.IRecord :=
  {| V1.id := "A"; V1.start := 600000; V1.end_ := 900000;
     V1.groupKeys := ["constructor"] |}.
Definition protoB1 : V1.IRecord :=
  {| V1.id := "B"; V1.start := 900999; V1.end_ := 1200000;
     V1.groupKeys := ["constructor"] |}.

(** The proposal that merges [r1] and [r2], in either revision. *)
Definition mergedPair (r1 r2 : IRecord) : MergeProposal :=
  {| baseRecordId := id r1;
     newStart := start r1;
     newEnd := Z.max (end_ r1) (end_ r2);
     recordsToDelete := [id r2];
     originalRecords := [r1; r2];
     validation :=
       if forallb hasDuration [r1; r2]
       then Some {| originalSum := Zsum (durations [r1; r2]);
                    newDuration := Z.max (end_ r1) (end_ r2) - start r1;
                    isValid := true |}
       else None |}.

Definition mergedPair1 (r1 r2 : V1.IRecord) : V1.MergeProposal :=
  {| V1.baseRecordId := V1.id r1;
     V1.newStart := V1.start r1;
     V1.newEnd := Z.max (V1.end_ r1) (V1.end_ r2);
     V1.recordsToDelete := [V1.id r2];
     V1.originalRecords := [r1; r2] |}.

(** The first revision's view of a record: the same fields, no duration. *)
Definition mkRecord1 (i : string) (s e : Z) (g : list string) : V1.IRecord :=
  {| V1.id := i; V1.start := s; V1.end_ := e; V1.groupKeys := g |}.

(** Records on both sides of local midnight, one second apart (UTC host):
    [midnightA] is instantaneous, [midnightLong] lasts an hour. *)
Definition midnightA := mkRecord1 "A" 1700092799500 1700092799500 ["X"].
Definition midnightLong := mkRecord1 "A" 1700092799500 1700096399500 ["X"].
Definition midnightB := mkRecord1 "B" 1700092800500 1700092900000 ["X"].

(** The same vocabulary for the first revision. *)
Definition maxEnd1 (r0 : V1.IRecord) (rest : list V1.IRecord) : Z :=
  fold_left (fun m r => Z.max m (V1.end_ r)) rest (V1.end_ r0).

Definition RunShape1 (k : string) (p : V1.MergeProposal) : Prop :=
  exists r0 rest,
    V1.originalRecords p = r0 :: rest /\
    V1.baseRecordId p = V1.id r0 /\
    V1.newStart p = V1.start r0 /\
    V1.newEnd p = maxEnd1 r0 rest /\
    V1.recordsToDelete p = map V1.id rest /\
    StronglySorted (leStart V1.start) (r0 :: rest) /\
    Forall (fun r => V1.groupKey r = k) (r0 :: rest).

Definition EmittedFor1 (k : string) (p : V1.MergeProposal) : Prop :=
  RunShape1 k p /\ V1.recordsToDelete p <> [].

Definition sampleRecords1 : list V1.IRecord :=
  [mkRecord1 "C" 5000000 5300000 ["X"];
   mkRecord1 "B" 900500 1200000 ["X"];
   mkRecord1 "A" 600000 900000 ["X"]].

Definition sampleProposal1 : V1.MergeProposal :=
  mergedPair1 (mkRecord1 "A" 600000 900000 ["X"])
              (mkRecord1 "B" 900500 1200000 ["X"]).

(** What the first revision sees of a record and of a proposal of the
    current one. *)
Definition forget (r : IRecord) : V1.IRecord :=
  mkRecord1 (id r) (start r) (end_ r) (groupKeys r).

Definition forgetProposal (p : MergeProposal) : V1.MergeProposal :=
  {| V1.baseRecordId := baseRecordId p;
     V1.newStart := newStart p;
     V1.newEnd := newEnd p;
     V1.recordsToDelete := recordsToDelete p;
     V1.originalRecords := map forget (originalRecords p) |}.

Definition mapCompletion {A B : Type} (f : A -> B) (c : Completion A)
  : Completion B :=
  match c with
  | Normal a => Normal (f a)
  | Throw e => Throw e
  end.

(** The same object with [f] applied to every record of every bucket. *)
Definition mapBuckets {A B : Type} (f : A -> B) (o : Obj (list A))
  : Obj (list B) :=
  map (fun kv => (fst kv, map f (snd kv))) o.

(** Two back-to-back records with durations equal to their lengths. *)
Definition abutA := mkRecord "A" 600000 900000 ["X"] (Some (Num 300000)).
Definition abutB := mkRecord "B" 900000 1200000 ["X"] (Some (Num 300000)).

Definition abutProposal : MergeProposal :=
  {| baseRecordId := "A"; newStart := 600000; newEnd := 1200000;
     recordsToDelete := ["B"];
     originalRecords := [abutA; abutB];
     validation := Some {| originalSum := 600000; newDuration := 600000;
                           isValid := true |} |}.

(** ** Sanity checks on sample data *)

Example calculateMerges_sample :
  calculateMerges (fixedZone 0) sampleRecords = Normal [sampleProposal].
Proof. reflexivity. Qed.

Example calculateMerges_timed :
  calculateMerges (fixedZone 0) [timedA; timedB] = Normal [timedProposal].
Proof. reflexivity. Qed.

(** ** The stable sort by [start] *)

Section SortFacts.

Context {R : Type} (startOf : R -> Z).

Lemma insertByStart_In (x y : R) (l : list R) :
  In y (insertByStart startOf x l) <-> y = x \/ In y l.
Proof.
  induction l as [|z l IH]; simpl.
  - intuition congruence.
  - destruct (startOf x <=? startOf z); simpl; rewrite ?IH; intuition congruence.
Qed.

Lemma sortByStart_In (y : R) (l : list R) :
  In y (sortByStart startOf l) <-> In y l.
Proof.
  induction l as [|x l IH]; simpl; [tauto|].
  rewrite insertByStart_In, IH. intuition congruence.
Qed.

Lemma sortByStart_Forall (P : R -> Prop) (l : list R) :
  Forall P l -> Forall P (sortByStart startOf l).
Proof.
  rewrite !Forall_forall. intros H y Hy. apply H, sortByStart_In, Hy.
Qed.

Lemma insertByStart_sorted (x : R) (l : list R) :
  StronglySorted (leStart startOf) l ->
  StronglySorted (leStart startOf) (insertByStart startOf x l).
Proof.
  induction 1 as [|z l Hs IH Hz]; simpl.
  - repeat constructor.
  - destruct (startOf x <=? startOf z) eqn:E.
    + apply Z.leb_le in E. constructor; [constructor; assumption|].
      constructor; [exact E|].
      eapply Forall_impl; [|exact Hz]. unfold leStart. intros; lia.
    + apply Z.leb_gt in E. constructor; [exact IH|].
      apply Forall_forall. intros y Hy.
      apply insertByStart_In in Hy. destruct Hy as [->|Hy].
      * unfold leStart; lia.
      * rewrite Forall_forall in Hz. auto.
Qed.

Lemma sortByStart_sorted (l : list R) :
  StronglySorted (leStart startOf) (sortByStart startOf l).
Proof.
  induction l; simpl; [constructor | apply insertByStart_sorted; assumption].
Qed.

Lemma sortByStart_nil_inv (l : list R) : sortByStart startOf l = [] -> l = [].
Proof.
  destruct l as [|x l]; [reflexivity|]. intros H.
  assert (Hin : In x (sortByStart startOf (x :: l)))
    by (apply sortByStart_In; left; reflexivity).
  rewrite H in Hin. destruct Hin.
Qed.



End SortFacts.

(** ** The object used as a map, and the grouping loop *)

Section ObjectFacts.

Context {V : Type}.

Lemma ownLookup_Some (o : Obj V) (key : string) (v : V) :
  ownLookup o key = Some v -> In (key, v) o.
Proof.
  induction o as [|[k w] o IH]; simpl; [discriminate|].
  destruct (String.eqb k key) eqn:E.
  - apply String.eqb_eq in E. intros [= ->]. left; congruence.
  - auto.
Qed.

Lemma ownLookup_None (o : Obj V) (key : string) :
  ownLookup o key = None -> ~ In key (map fst o).
Proof.
  induction o as [|[k w] o IH]; simpl; [tauto|].
  destruct (String.eqb k key) eqn:E; [discriminate|].
  apply String.eqb_neq in E. intros H [Hk|Hk]; [congruence | exact (IH H Hk)].
Qed.

Lemma ownUpdate_keys (o : Obj V) (key : string) (v : V) :
  map fst (ownUpdate o key v) = map fst o.
Proof.
  induction o as [|[k w] o IH]; simpl; [reflexivity|].
  destruct (String.eqb k key); simpl; congruence.
Qed.

Lemma ownUpdate_In (o : Obj V) (key : string) (v : V) (k : string) (b : V) :
  NoDup (map fst o) ->
  In (k, b) (ownUpdate o key v) ->
  (k = key /\ b = v) \/ (k <> key /\ In (k, b) o).
Proof.
  induction o as [|[k0 w] o IH]; simpl; [tauto|].
  intros Hnd. inversion Hnd as [|? ? Hnotin Hnd']; subst.
  destruct (String.eqb k0 key) eqn:E; simpl.
  - apply String.eqb_eq in E. subst k0. intros [[= <- <-]|Hin]; [left; auto|].
    right. split; [|right; exact Hin].
    intros ->. apply Hnotin. apply (in_map fst) in Hin. exact Hin.
  - apply String.eqb_neq in E. intros [[= <- <-]|Hin].
    + right. split; [exact E | left; reflexivity].
    + destruct (IH Hnd' Hin) as [?|[? ?]]; [left; assumption | right; auto].
Qed.

Lemma insertIndexed_In (e x : N * V) (l : list (N * V)) :
  In e (insertIndexed x l) <-> e = x \/ In e l.
Proof.
  induction l as [|y l IH]; simpl.
  - intuition congruence.
  - destruct (fst x <=? fst y)%N; simpl; rewrite ?IH; intuition congruence.
Qed.

(** Every enumerated value is the value of an own property. *)
Lemma objectValues_In (o : Obj V) (v : V) :
  In v (objectValues o) -> exists k, In (k, v) o.
Proof.
  unfold objectValues. rewrite in_app_iff. intros [H|H].
  - apply in_map_iff in H. destruct H as [[n w] [<- H]]. simpl.
    induction o as [|[k u] o IH]; simpl in *; [contradiction|].
    destruct (arrayIndex k).
    + apply insertIndexed_In in H. destruct H as [[= _ <-]|H].
      * exists k; left; reflexivity.
      * destruct (IH H) as [k' Hk']. exists k'; right; exact Hk'.
    + destruct (IH H) as [k' Hk']. exists k'; right; exact Hk'.
  - induction o as [|[k u] o IH]; simpl in *; [contradiction|].
    destruct (arrayIndex k).
    + destruct (IH H) as [k' Hk']. exists k'; right; exact Hk'.
    + destruct H as [<-|H]; [exists k; left; reflexivity|].
      destruct (IH H) as [k' Hk']. exists k'; right; exact Hk'.
Qed.

End ObjectFacts.

Lemma filter_nil_of {A : Type} (f : A -> bool) (l : list A) :
  (forall x, In x l -> f x = false) -> filter f l = [].
Proof.
  induction l as [|a l IH]; simpl; [reflexivity|]. intros H.
  rewrite (H a (or_introl eq_refl)). apply IH. intros x Hx. apply H. right; exact Hx.
Qed.

Section GroupFacts.

Context {R : Type} (keyOf : R -> string).

Lemma Grouped_nil : Grouped keyOf [] [].
Proof.
  repeat split; simpl; try constructor; contradiction.
Qed.

Lemma groupStep_Grouped (seen : list R) (groups groups' : Obj (list R)) (r : R) :
  Grouped keyOf seen groups ->
  groupStep keyOf groups r = Normal groups' ->
  Grouped keyOf (seen ++ [r]) groups'.
Proof.
  intros (Hnd & Hcov & Hfil). unfold groupStep.
  destruct (ownLookup groups (keyOf r)) as [bucket|] eqn:L.
  - intros [= <-]. apply ownLookup_Some in L.
    repeat split.
    + rewrite ownUpdate_keys. exact Hnd.
    + intros x Hx. rewrite ownUpdate_keys. apply in_app_iff in Hx.
      destruct Hx as [Hx|[<-|[]]]; [auto|].
      apply (in_map fst) in L. exact L.
    + apply ownUpdate_In in H; [|exact Hnd].
      rewrite filter_app. simpl.
      destruct H as [[-> ->]|[Hne Hin]].
      * rewrite String.eqb_refl. destruct (Hfil _ _ L) as [<- _]. reflexivity.
      * destruct (String.eqb (keyOf r) k) eqn:E;
          [apply String.eqb_eq in E; congruence|].
        rewrite app_nil_r. apply Hfil, Hin.
    + apply ownUpdate_In in H; [|exact Hnd].
      destruct H as [[-> ->]|[Hne Hin]].
      * destruct bucket; discriminate.
      * apply (Hfil _ _ Hin).
  - destruct (inherited (keyOf r)); [discriminate|]. intros [= <-].
    apply ownLookup_None in L.
    repeat split.
    + rewrite map_app. simpl.
      apply (proj2 (NoDup_Add (Add_app (keyOf r) (map fst groups) []))).
      rewrite app_nil_r. split; assumption.
    + intros x Hx. rewrite map_app, in_app_iff. simpl.
      apply in_app_iff in Hx. destruct Hx as [Hx|[<-|[]]]; auto.
    + apply in_app_iff in H. rewrite filter_app. simpl.
      destruct H as [Hin|[[= <- <-]|[]]].
      * destruct (String.eqb (keyOf r) k) eqn:E.
        -- apply String.eqb_eq in E. subst k.
           apply (in_map fst) in Hin. contradiction.
        -- rewrite app_nil_r. apply Hfil, Hin.
      * rewrite String.eqb_refl.
        rewrite filter_nil_of; [reflexivity|].
        intros x Hx. apply String.eqb_neq. intros E. apply L.
        rewrite <- E. apply Hcov, Hx.
    + apply in_app_iff in H. destruct H as [Hin|[[= <- <-]|[]]].
      * apply (Hfil _ _ Hin).
      * discriminate.
Qed.

Lemma groupAll_Grouped (rs seen : list R) (groups groups' : Obj (list R)) :
  Grouped keyOf seen groups ->
  groupAll keyOf rs groups = Normal groups' ->
  Grouped keyOf (seen ++ rs) groups'.
Proof.
  revert seen groups. induction rs as [|r rs IH]; simpl; intros seen groups HG.
  - intros [= <-]. rewrite app_nil_r. exact HG.
  - destruct (groupStep keyOf groups r) as [g1|e] eqn:E; [|discriminate].
    intros H. replace (seen ++ r :: rs) with ((seen ++ [r]) ++ rs)
      by (rewrite <- app_assoc; reflexivity).
    eapply IH; [|exact H]. eapply groupStep_Grouped; eassumption.
Qed.

(** The grouping loop throws only on a key inherited from the prototype. *)
Lemma groupAll_returns (rs : list R) (groups : Obj (list R)) :
  Forall (fun r => inherited (keyOf r) = false) rs ->
  exists groups', groupAll keyOf rs groups = Normal groups'.
Proof.
  revert groups. induction rs as [|r rs IH]; simpl; intros groups H.
  - eexists; reflexivity.
  - inversion H as [|? ? Hr Hrs]; subst. unfold groupStep.
    destruct (ownLookup groups (keyOf r)); [apply IH, Hrs|].
    rewrite Hr. apply IH, Hrs.
Qed.

End GroupFacts.

(** ** The run builder *)

Lemma StronglySorted_snoc {A : Type} (Q : A -> A -> Prop) (l : list A) (x : A) :
  StronglySorted Q l -> Forall (fun y => Q y x) l -> StronglySorted Q (l ++ [x]).
Proof.
  induction 1 as [|a l Hs IH Ha]; simpl; intros Hx.
  - repeat constructor.
  - inversion Hx as [|? ? Hax Hlx]; subst. constructor; [apply IH, Hlx|].
    apply Forall_app. split; [exact Ha | constructor; [exact Hax | constructor]].
Qed.

Lemma maxEnd_snoc (r0 : IRecord) (rest : list IRecord) (r : IRecord) :
  maxEnd r0 (rest ++ [r]) = Z.max (maxEnd r0 rest) (end_ r).
Proof. unfold maxEnd. rewrite fold_left_app. reflexivity. Qed.

Lemma finalizeProposal_fields (p : MergeProposal) :
  baseRecordId (finalizeProposal p) = baseRecordId p /\
  newStart (finalizeProposal p) = newStart p /\
  newEnd (finalizeProposal p) = newEnd p /\
  recordsToDelete (finalizeProposal p) = recordsToDelete p /\
  originalRecords (finalizeProposal p) = originalRecords p.
Proof.
  unfold finalizeProposal.
  destruct (forallb hasDuration (originalRecords p)); simpl; auto.
Qed.

Lemma RunShape_newProposal (k : string) (record : IRecord) :
  groupKey record = k -> RunShape k (newProposal record).
Proof.
  intros Hk. exists record, []. simpl.
  repeat split; try reflexivity; repeat constructor; exact Hk.
Qed.

Lemma RunShape_absorb (k : string) (p : MergeProposal) (record : IRecord) :
  RunShape k p -> groupKey record = k ->
  Forall (fun r' => start r' <= start record) (originalRecords p) ->
  RunShape k (absorb p record).
Proof.
  intros (r0 & rest & Ho & Hb & Hs & He & Hd & Hsort & Hkey & Hv) Hk Hle.
  exists r0, (rest ++ [record]). simpl. rewrite Ho in *.
  repeat split.
  - rewrite Hb. reflexivity.
  - exact Hs.
  - rewrite maxEnd_snoc, He. reflexivity.
  - rewrite Hd, map_app. reflexivity.
  - change (r0 :: rest ++ [record]) with ((r0 :: rest) ++ [record]).
    apply StronglySorted_snoc; assumption.
  - change (r0 :: rest ++ [record]) with ((r0 :: rest) ++ [record]).
    apply Forall_app. split; [exact Hkey | constructor; [exact Hk | constructor]].
  - exact Hv.
Qed.

Lemma pushIfMerged_Emitted (k : string) (ps : list MergeProposal) (p : MergeProposal) :
  Forall (EmittedFor k) ps -> RunShape k p -> Forall (EmittedFor k) (pushIfMerged ps p).
Proof.
  intros Hps Hp. unfold pushIfMerged.
  destruct (0 <? List.length (recordsToDelete p))%nat eqn:E; [|exact Hps].
  apply Forall_app. split; [exact Hps|]. constructor; [|constructor].
  exists p. repeat split; try assumption.
  intros Hnil. rewrite Hnil in E. discriminate.
Qed.

Section RunBuilder.

Variable LocalTZA : Z -> Z.
Variable k : string.

Lemma loop_invariant (rs : list IRecord) :
  forall (ps : list MergeProposal) (cur : option MergeProposal) ps' cur',
    StronglySorted (leStart start) rs ->
    Forall (fun r => groupKey r = k) rs ->
    Forall (EmittedFor k) ps ->
    (forall p, cur = Some p ->
       RunShape k p /\
       Forall (fun r => Forall (fun r' => start r' <= start r)
                               (originalRecords p)) rs) ->
    fold_left (loopBody LocalTZA) rs (ps, cur) = (ps', cur') ->
    Forall (EmittedFor k) ps' /\ (forall p, cur' = Some p -> RunShape k p).
Proof.
  induction rs as [|record rs IH]; simpl; intros ps cur ps' cur' Hs Hk Hps Hcur.
  - intros [= <- <-]. split; [exact Hps|]. intros p Hp. apply Hcur, Hp.
  - apply StronglySorted_inv in Hs. destruct Hs as [Hs' Hle].
    apply Forall_cons_iff in Hk. destruct Hk as [Hk1 Hk'].
    assert (Hnew : Forall (fun r => Forall (fun r' => start r' <= start r)
                              [record]) rs).
    { eapply Forall_impl; [|exact Hle]. intros r Hr.
      constructor; [exact Hr | constructor]. }
    destruct cur as [p|].
    + destruct (Hcur p eq_refl) as [Hp Hall].
      apply Forall_cons_iff in Hall. destruct Hall as [Hrec Hrest].
      destruct (isSequential p record && isSameDay LocalTZA p record).
      * apply IH; try assumption. intros q [= <-]. split.
        -- apply RunShape_absorb; auto.
        -- simpl. rewrite Forall_forall in *. intros r Hr.
           apply Forall_app. split; [apply Hrest, Hr|].
           specialize (Hnew r Hr). exact Hnew.
      * apply IH; try assumption.
        -- eapply pushIfMerged_Emitted; eassumption.
        -- intros q [= <-]. split; [apply RunShape_newProposal, Hk1|].
           exact Hnew.
    + apply IH; try assumption. intros q [= <-].
      split; [apply RunShape_newProposal, Hk1 | exact Hnew].
Qed.

Lemma processGroup_EmittedFor (ps : list MergeProposal) (bucket : list IRecord) :
  Forall (fun r => groupKey r = k) bucket ->
  Forall (EmittedFor k) ps ->
  Forall (EmittedFor k) (processGroup LocalTZA ps bucket).
Proof.
  intros Hk Hps. unfold processGroup.
  pose proof (sortByStart_sorted start bucket) as Hsorted.
  pose proof (sortByStart_Forall start _ bucket Hk) as Hkeys.
  destruct (sortByStart start bucket) as [|r0 rs] eqn:E; [exact Hps|].
  destruct (fold_left (loopBody LocalTZA) (r0 :: rs) (ps, None))
    as [ps' cur'] eqn:F.
  apply loop_invariant in F; try assumption; [|discriminate].
  destruct F as [Hps' Hcur']. destruct cur' as [p|]; [|exact Hps'].
  eapply pushIfMerged_Emitted; [exact Hps' | apply Hcur'; reflexivity].
Qed.

End RunBuilder.

(** The walk over a bucket only appends to [proposals]; what it appends
    does not depend on what is already there. *)
Lemma pushIfMerged_app (ps : list MergeProposal) (p : MergeProposal) :
  pushIfMerged ps p = ps ++ pushIfMerged [] p.
Proof.
  unfold pushIfMerged.
  destruct (0 <? List.length (recordsToDelete p))%nat; simpl;
    [reflexivity | rewrite app_nil_r; reflexivity].
Qed.

Lemma loop_app (LocalTZA : Z -> Z) (rs : list IRecord) :
  forall ps cur,
    fold_left (loopBody LocalTZA) rs (ps, cur) =
    (ps ++ fst (fold_left (loopBody LocalTZA) rs ([], cur)),
     snd (fold_left (loopBody LocalTZA) rs ([], cur))).
Proof.
  induction rs as [|record rs IH]; simpl; intros ps cur.
  - rewrite app_nil_r. reflexivity.
  - destruct cur as [p|].
    + destruct (isSequential p record && isSameDay LocalTZA p record).
      * apply IH.
      * rewrite IH. rewrite (IH (pushIfMerged [] p)).
        rewrite (pushIfMerged_app ps p). simpl.
        rewrite app_assoc. reflexivity.
    + apply IH.
Qed.

Lemma processGroup_app (LocalTZA : Z -> Z) (ps : list MergeProposal)
  (bucket : list IRecord) :
  processGroup LocalTZA ps bucket = ps ++ processGroup LocalTZA [] bucket.
Proof.
  unfold processGroup. destruct (sortByStart start bucket) as [|r0 rs].
  - rewrite app_nil_r. reflexivity.
  - rewrite loop_app.
    destruct (fold_left (loopBody LocalTZA) (r0 :: rs) ([], None)) as [qs cur].
    simpl. destruct cur as [p|]; [|reflexivity].
    rewrite pushIfMerged_app, (pushIfMerged_app qs p), app_assoc. reflexivity.
Qed.

Lemma processGroups_flat (LocalTZA : Z -> Z) (buckets : list (list IRecord)) :
  forall ps,
    fold_left (processGroup LocalTZA) buckets ps =
    ps ++ flat_map (processGroup LocalTZA []) buckets.
Proof.
  induction buckets as [|b bs IH]; simpl; intros ps.
  - rewrite app_nil_r. reflexivity.
  - rewrite IH, processGroup_app, app_assoc. reflexivity.
Qed.

(** Every returned proposal comes from the walk over one bucket, and a
    bucket holds exactly the input records of one key, in input order. *)
Lemma calculateMerges_origin (LocalTZA : Z -> Z) (records : list IRecord)
  (ps : list MergeProposal) (q : MergeProposal) :
  calculateMerges LocalTZA records = Normal ps -> In q ps ->
  exists k,
    In q (processGroup LocalTZA []
            (filter (fun r => String.eqb (groupKey r) k) records)) /\
    EmittedFor k q.
Proof.
  unfold calculateMerges.
  destruct (groupAll groupKey records []) as [groups|e] eqn:G; [|discriminate].
  intros [= <-] Hq.
  apply (groupAll_Grouped groupKey records []) in G; [|apply Grouped_nil].
  destruct G as (_ & _ & Hfil). simpl in Hfil.
  rewrite processGroups_flat in Hq. simpl in Hq.
  apply in_flat_map in Hq. destruct Hq as (b & Hb & Hq).
  apply objectValues_In in Hb. destruct Hb as [k Hin].
  destruct (Hfil _ _ Hin) as [-> _]. exists k. split; [exact Hq|].
  assert (HF : Forall (EmittedFor k)
                 (processGroup LocalTZA []
                    (filter (fun r => String.eqb (groupKey r) k) records))).
  { apply processGroup_EmittedFor; [|constructor].
    apply Forall_forall. intros r Hr. apply filter_In in Hr.
    apply String.eqb_eq, Hr. }
  rewrite Forall_forall in HF. apply HF, Hq.
Qed.

(** ** What an emitted proposal looks like *)

Lemma sum_durations (rs : list IRecord) :
  forall acc,
    fold_left (fun sum r => sum + durationOrZero r) rs acc =
    acc + Zsum (durations rs).
Proof.
  induction rs as [|r rs IH]; simpl; intros acc; [lia|].
  rewrite IH. unfold Zsum, durationOrZero.
  destruct (duration r) as [[|d]|]; simpl; [lia| |lia].
  fold (Zsum (durations rs)). destruct (d =? 0) eqn:E; [|lia].
  apply Z.eqb_eq in E. lia.
Qed.

Lemma jsSum_from (rs : list IRecord) :
  forall acc,
    Forall (fun r => duration r <> Some NaN) rs ->
    fold_left jsAdd (durationValues rs) (Num acc)
    = Num (acc + Zsum (durations rs)).
Proof.
  induction rs as [|r rs IH]; simpl; intros acc Hnum.
  - f_equal. unfold Zsum. simpl. lia.
  - apply Forall_cons_iff in Hnum. destruct Hnum as [Hr Hnum].
    destruct (duration r) as [[|d]|]; simpl.
    + contradiction Hr. reflexivity.
    + rewrite (IH _ Hnum). f_equal. unfold Zsum. simpl. lia.
    + apply IH, Hnum.
Qed.

Lemma jsSum_of_numbers (rs : list IRecord) :
  Forall (fun r => duration r <> Some NaN) rs ->
  jsSum (durationValues rs) = Num (Zsum (durations rs)).
Proof. intros H. unfold jsSum. rewrite (jsSum_from rs 0 H). reflexivity. Qed.

Lemma forallb_hasDuration (rs : list IRecord) :
  forallb hasDuration rs = true <-> Forall (fun r => duration r <> None) rs.
Proof.
  rewrite forallb_forall, Forall_forall. unfold hasDuration.
  split; intros H r Hr; specialize (H r Hr); destruct (duration r);
    congruence.
Qed.

Lemma finalizeProposal_validation (p : MergeProposal) :
  validation p = None ->
  validation (finalizeProposal p) =
  if forallb hasDuration (originalRecords p)
  then Some {| originalSum := Zsum (durations (originalRecords p));
               newDuration := newEnd p - newStart p;
               isValid := true |}
  else None.
Proof.
  intros Hv. unfold finalizeProposal.
  destruct (forallb hasDuration (originalRecords p)); simpl; [|exact Hv].
  rewrite sum_durations. reflexivity.
Qed.

Lemma EmittedFor_shape (k : string) (q : MergeProposal) :
  EmittedFor k q ->
  exists r0 r1 rest,
    originalRecords q = r0 :: r1 :: rest /\
    baseRecordId q = id r0 /\
    newStart q = start r0 /\
    newEnd q = maxEnd r0 (r1 :: rest) /\
    recordsToDelete q = map id (r1 :: rest) /\
    StronglySorted (leStart start) (r0 :: r1 :: rest) /\
    Forall (fun r => groupKey r = k) (r0 :: r1 :: rest) /\
    validation q =
      if forallb hasDuration (originalRecords q)
      then Some {| originalSum := Zsum (durations (originalRecords q));
                   newDuration := newEnd q - newStart q;
                   isValid := true |}
      else None.
Proof.
  intros (p & (r0 & rest & Ho & Hb & Hs & He & Hd & Hsort & Hkey & Hv) & Hne & ->).
  destruct rest as [|r1 rest]; [rewrite Hd in Hne; contradiction|].
  destruct (finalizeProposal_fields p) as (Fb & Fs & Fe & Fd & Fo).
  exists r0, r1, rest. rewrite Fb, Fs, Fe, Fd, Fo.
  repeat split; try assumption.
  apply finalizeProposal_validation, Hv.
Qed.

Lemma fold_right_max_init (l : list Z) (m x : Z) :
  fold_right Z.max (Z.max m x) l = Z.max x (fold_right Z.max m l).
Proof. induction l as [|y l IH]; simpl; [lia | rewrite IH; lia]. Qed.

Lemma maxEnd_maximum (r0 : IRecord) (rest : list IRecord) :
  maximum (map end_ (r0 :: rest)) = Some (maxEnd r0 rest).
Proof.
  unfold maxEnd. simpl. f_equal. generalize (end_ r0) as m.
  induction rest as [|r rest IH]; simpl; intros m; [reflexivity|].
  rewrite <- IH, fold_right_max_init. lia.
Qed.

Lemma sorted_minimum (r0 : IRecord) (rest : list IRecord) :
  StronglySorted (leStart start) (r0 :: rest) ->
  minimum (map start (r0 :: rest)) = Some (start r0).
Proof.
  intros Hs. apply StronglySorted_inv in Hs. destruct Hs as [_ Hle].
  simpl. f_equal. induction Hle as [|r rest Hr Hrest IH]; simpl; [reflexivity|].
  rewrite IH. unfold leStart in Hr. lia.
Qed.

(** [minimum] and [maximum] are the least and the greatest element. *)
Lemma minimum_spec (l : list Z) (m : Z) :
  minimum l = Some m -> In m l /\ forall x, In x l -> m <= x.
Proof.
  destruct l as [|a l]; [discriminate|]. simpl. intros [= <-].
  induction l as [|b l IH]; simpl.
  - split; [left; reflexivity | intros x [<-|[]]; lia].
  - destruct IH as [Hin Hle]. split.
    + destruct (Z.min_spec b (fold_right Z.min a l)) as [[_ ->]|[_ ->]];
        [right; left; reflexivity|].
      destruct Hin as [Hin|Hin]; [left; exact Hin | right; right; exact Hin].
    + intros x [<-|[<-|Hx]].
      * specialize (Hle a (or_introl eq_refl)). lia.
      * lia.
      * specialize (Hle x (or_intror Hx)). lia.
Qed.

Lemma maximum_spec (l : list Z) (m : Z) :
  maximum l = Some m -> In m l /\ forall x, In x l -> x <= m.
Proof.
  destruct l as [|a l]; [discriminate|]. simpl. intros [= <-].
  induction l as [|b l IH]; simpl.
  - split; [left; reflexivity | intros x [<-|[]]; lia].
  - destruct IH as [Hin Hle]. split.
    + destruct (Z.max_spec b (fold_right Z.max a l)) as [[_ ->]|[_ ->]];
        [|right; left; reflexivity].
      destruct Hin as [Hin|Hin]; [left; exact Hin | right; right; exact Hin].
    + intros x [<-|[<-|Hx]].
      * specialize (Hle a (or_introl eq_refl)). lia.
      * lia.
      * specialize (Hle x (or_intror Hx)). lia.
Qed.

(** ** Properties of the emitted proposals *)

(** C1. For every proposal emitted by [calculateMerges], [newStart] is the
    minimum start over its [originalRecords] and [newEnd] is the maximum end
    over its [originalRecords]. *)
Theorem proposal_bounds (LocalTZA : Z -> Z) (records : list IRecord)
  (ps : list MergeProposal) (p : MergeProposal) :
  calculateMerges LocalTZA records = Normal ps -> In p ps ->
  minimum (map start (originalRecords p)) = Some (newStart p) /\
  maximum (map end_ (originalRecords p)) = Some (newEnd p).
Proof.
  intros Hc Hp. destruct (calculateMerges_origin _ _ _ _ Hc Hp) as (k & _ & He).
  apply EmittedFor_shape in He.
  destruct He as (r0 & r1 & rest & Ho & _ & Hs & He & _ & Hsort & _).
  rewrite Ho, Hs, He. split.
  - apply sorted_minimum, Hsort.
  - apply maxEnd_maximum.
Qed.

Lemma proposal_bounds_witness :
  calculateMerges (fixedZone 0) sampleRecords = Normal [sampleProposal] /\
  In sampleProposal [sampleProposal] /\
  minimum (map start (originalRecords sampleProposal)) = Some 600000 /\
  maximum (map end_ (originalRecords sampleProposal)) = Some 1200000.
Proof.
  split; [reflexivity|]. split; [left; reflexivity|].
  apply (proposal_bounds (fixedZone 0) sampleRecords [sampleProposal]
           sampleProposal); [reflexivity | left; reflexivity].
Defined.

(** The maximum end need not be the end of the last record of the run. *)
Example newEnd_not_last_end :
  calculateMerges (fixedZone 0) [nestedA; nestedB] =
  Normal [ {| baseRecordId := "A"; newStart := 1000000; newEnd := 1000900;
              recordsToDelete := ["B"];
              originalRecords := [nestedA; nestedB];
              validation := None |} ]
  /\ end_ nestedB = 1000600.
Proof. split; reflexivity. Qed.

(** C3. For every proposal emitted by [calculateMerges], the length of
    [recordsToDelete] plus one is the length of [originalRecords], and the
    ids [baseRecordId] together with [recordsToDelete] are exactly the ids
    of [originalRecords]. *)
Theorem proposal_conservation (LocalTZA : Z -> Z) (records : list IRecord)
  (ps : list MergeProposal) (p : MergeProposal) :
  calculateMerges LocalTZA records = Normal ps -> In p ps ->
  (List.length (recordsToDelete p) + 1 = List.length (originalRecords p))%nat /\
  (forall x, In x (baseRecordId p :: recordsToDelete p) <->
             In x (map id (originalRecords p))).
Proof.
  intros Hc Hp. destruct (calculateMerges_origin _ _ _ _ Hc Hp) as (k & _ & He).
  apply EmittedFor_shape in He.
  destruct He as (r0 & r1 & rest & Ho & Hb & _ & _ & Hd & _).
  rewrite Ho, Hb, Hd. split.
  - simpl. rewrite length_map. lia.
  - intros x. simpl. tauto.
Qed.

Lemma proposal_conservation_witness :
  calculateMerges (fixedZone 0) sampleRecords = Normal [sampleProposal] /\
  In sampleProposal [sampleProposal] /\
  (List.length (recordsToDelete sampleProposal) + 1 =
   List.length (originalRecords sampleProposal))%nat /\
  (forall x, In x (baseRecordId sampleProposal :: recordsToDelete sampleProposal)
             <-> In x (map id (originalRecords sampleProposal))).
Proof.
  split; [reflexivity|]. split; [left; reflexivity|].
  apply (proposal_conservation (fixedZone 0) sampleRecords [sampleProposal]
           sampleProposal); [reflexivity | left; reflexivity].
Defined.

(** C9. For every proposal emitted by [calculateMerges], [originalRecords]
    is sorted ascending by [start], and [baseRecordId] is the id of its
    first record. *)
Theorem proposal_sorted_base (LocalTZA : Z -> Z) (records : list IRecord)
  (ps : list MergeProposal) (p : MergeProposal) :
  calculateMerges LocalTZA records = Normal ps -> In p ps ->
  StronglySorted (leStart start) (originalRecords p) /\
  option_map id (hd_error (originalRecords p)) = Some (baseRecordId p).
Proof.
  intros Hc Hp. destruct (calculateMerges_origin _ _ _ _ Hc Hp) as (k & _ & He).
  apply EmittedFor_shape in He.
  destruct He as (r0 & r1 & rest & Ho & Hb & _ & _ & _ & Hsort & _).
  rewrite Ho, Hb. split; [exact Hsort | reflexivity].
Qed.

Lemma proposal_sorted_base_witness :
  calculateMerges (fixedZone 0) sampleRecords = Normal [sampleProposal] /\
  In sampleProposal [sampleProposal] /\
  StronglySorted (leStart start) (originalRecords sampleProposal) /\
  option_map id (hd_error (originalRecords sampleProposal)) = Some "A".
Proof.
  split; [reflexivity|]. split; [left; reflexivity|].
  apply (proposal_sorted_base (fixedZone 0) sampleRecords [sampleProposal]
           sampleProposal); [reflexivity | left; reflexivity].
Defined.

(** What the code attaches when no duration is [NaN]: a proposal carries
    a validation exactly when every record has a duration; [originalSum] is
    then the sum of those durations and [newDuration] is
    [newEnd - newStart]; one record without a duration is enough for the
    field to be absent. *)
Lemma validation_of_numbers (LocalTZA : Z -> Z) (records : list IRecord)
  (ps : list MergeProposal) (p : MergeProposal) :
  calculateMerges LocalTZA records = Normal ps -> In p ps ->
  Forall (fun r => duration r <> Some NaN) (originalRecords p) ->
  (validation p <> None <->
   Forall (fun r => duration r <> None) (originalRecords p)) /\
  (forall v, validation p = Some v ->
     Num (originalSum v) = jsSum (durationValues (originalRecords p)) /\
     newDuration v = newEnd p - newStart p) /\
  (forall r, In r (originalRecords p) -> duration r = None ->
     validation p = None).
Proof.
  intros Hc Hp Hnum.
  destruct (calculateMerges_origin _ _ _ _ Hc Hp) as (k & _ & He).
  apply EmittedFor_shape in He.
  destruct He as (r0 & r1 & rest & _ & _ & _ & _ & _ & _ & _ & Hv).
  pose proof (forallb_hasDuration (originalRecords p)) as Hall.
  rewrite (jsSum_of_numbers _ Hnum).
  destruct (forallb hasDuration (originalRecords p)) eqn:E; rewrite Hv.
  - split; [|split].
    + split; [intros _; apply Hall; reflexivity | intros _; discriminate].
    + intros v [= <-]. split; reflexivity.
    + intros r Hr Hnone. exfalso.
      assert (HF : Forall (fun r => duration r <> None) (originalRecords p))
        by (apply Hall; reflexivity).
      rewrite Forall_forall in HF. exact (HF r Hr Hnone).
  - split; [|split].
    + split; [intros H; contradiction | intros H; apply Hall in H; discriminate].
    + discriminate.
    + reflexivity.
Qed.

(** C8, at a failing input.  [nanB] is what [handlePreview] builds for a
    row whose duration cell is empty: [Number(undefined)] is [NaN], and the
    row passes the filter.  [NaN] is not [undefined], so [finalizeProposal]
    attaches a validation; [NaN || 0] is 0, so [originalSum] is 5.  If
    [nanB] counts as having a duration, 5 is not the sum of the durations
    (which is [NaN]); if it counts as lacking one, no validation should be
    attached. *)
Theorem validation_counts_NaN :
  App.validRecords nanRaw = [nanA; nanB] /\
  duration nanB = Some NaN /\
  calculateMerges (fixedZone 0) [nanA; nanB] = Normal [nanProposal] /\
  validation nanProposal
    = Some {| originalSum := 5; newDuration := 600000; isValid := true |} /\
  jsSum (durationValues (originalRecords nanProposal)) = NaN.
Proof. repeat split. Qed.

(** C10. Whenever an emitted proposal carries a validation field, its
    [isValid] flag is [true]. *)
Theorem validation_always_valid (LocalTZA : Z -> Z) (records : list IRecord)
  (ps : list MergeProposal) (p : MergeProposal) (v : Validation) :
  calculateMerges LocalTZA records = Normal ps -> In p ps ->
  validation p = Some v -> isValid v = true.
Proof.
  intros Hc Hp. destruct (calculateMerges_origin _ _ _ _ Hc Hp) as (k & _ & He).
  apply EmittedFor_shape in He.
  destruct He as (r0 & r1 & rest & _ & _ & _ & _ & _ & _ & _ & Hv).
  rewrite Hv. destruct (forallb hasDuration (originalRecords p));
    [intros [= <-]; reflexivity | discriminate].
Qed.

Lemma validation_always_valid_witness :
  calculateMerges (fixedZone 0) [timedA; timedB] = Normal [timedProposal] /\
  In timedProposal [timedProposal] /\
  validation timedProposal =
    Some {| originalSum := 12; newDuration := 600000; isValid := true |} /\
  isValid {| originalSum := 12; newDuration := 600000; isValid := true |} = true.
Proof.
  split; [reflexivity|]. split; [left; reflexivity|]. split; [reflexivity|].
  apply (validation_always_valid (fixedZone 0) [timedA; timedB] [timedProposal]
           timedProposal); [reflexivity | left; reflexivity | reflexivity].
Defined.

(** ** Grouping *)

(** Counterexample to C5 as stated.  The key sequences of [collisionA] and
    [collisionB] differ at every position, yet both join to "a|||b|||c";
    the two records share a bucket and are merged into one proposal. *)
Lemma grouping_collision :
  Forall2 (fun a b => a <> b) (groupKeys collisionA) (groupKeys collisionB) /\
  calculateMerges (fixedZone 0) [collisionA; collisionB]
    = Normal [collisionProposal] /\
  In collisionA (originalRecords collisionProposal) /\
  In collisionB (originalRecords collisionProposal).
Proof.
  split; [repeat constructor; discriminate|].
  split; [reflexivity|].
  split; [left; reflexivity | right; left; reflexivity].
Qed.

(** C5, amended.  Two records whose [groupKeys] joined with the separator
    "|||" differ never appear in the same proposal of [calculateMerges]. *)
Theorem grouping_by_joined_key (LocalTZA : Z -> Z) (records : list IRecord)
  (ps : list MergeProposal) (p : MergeProposal) (r1 r2 : IRecord) :
  calculateMerges LocalTZA records = Normal ps -> In p ps ->
  groupKey r1 <> groupKey r2 ->
  ~ (In r1 (originalRecords p) /\ In r2 (originalRecords p)).
Proof.
  intros Hc Hp Hne [H1 H2].
  destruct (calculateMerges_origin _ _ _ _ Hc Hp) as (k & _ & He).
  apply EmittedFor_shape in He.
  destruct He as (r0 & r1' & rest & Ho & _ & _ & _ & _ & _ & Hkey & _).
  rewrite <- Ho in Hkey. rewrite Forall_forall in Hkey.
  apply Hne. rewrite (Hkey r1 H1), (Hkey r2 H2). reflexivity.
Qed.

Lemma grouping_by_joined_key_witness :
  calculateMerges (fixedZone 0) mixedRecords = Normal [sampleProposal] /\
  In sampleProposal [sampleProposal] /\
  groupKey loneY1 <> groupKey sampleB /\
  Z.abs (start sampleB - end_ loneY1) < 1000 /\
  ~ (In loneY1 (originalRecords sampleProposal) /\
     In sampleB (originalRecords sampleProposal)).
Proof.
  split; [reflexivity|]. split; [left; reflexivity|].
  split; [discriminate|]. split; [reflexivity|].
  apply (grouping_by_joined_key (fixedZone 0) mixedRecords [sampleProposal]
           sampleProposal loneY1 sampleB);
    [reflexivity | left; reflexivity | discriminate].
Defined.

(** ** When the joined key separates the key sequences *)

Lemma append_bar_inj (x y a b : string) :
  hasBar x = false -> hasBar y = false ->
  (x ++ String "|" a)%string = (y ++ String "|" b)%string ->
  x = y /\ a = b.
Proof.
  revert y. induction x as [|c x IH]; intros [|d y]; simpl; intros Hx Hy H.
  - injection H as <-. split; reflexivity.
  - injection H as <- _. discriminate.
  - injection H as -> _. discriminate.
  - apply orb_false_iff in Hx, Hy. injection H as <- H.
    destruct (IH y (proj2 Hx) (proj2 Hy) H) as [<- <-]. split; reflexivity.
Qed.

(** Key sequences of the same length whose values do not contain the
    character "|" are told apart by the joined key. *)
Lemma join_injective (xs : list string) :
  forall ys,
    List.length xs = List.length ys ->
    Forall (fun s => hasBar s = false) xs ->
    Forall (fun s => hasBar s = false) ys ->
    join "|||" xs = join "|||" ys -> xs = ys.
Proof.
  unfold join. induction xs as [|x xs IH]; intros [|y ys] Hlen Hxs Hys H;
    try discriminate; [reflexivity|].
  injection Hlen as Hlen.
  apply Forall_cons_iff in Hxs, Hys.
  destruct Hxs as [Hx Hxs], Hys as [Hy Hys].
  destruct xs as [|x' xs], ys as [|y' ys]; try discriminate.
  - simpl in H. subst. reflexivity.
  - change (String.concat "|||" (x :: x' :: xs))
      with (x ++ String "|" ("||" ++ String.concat "|||" (x' :: xs)))%string in H.
    change (String.concat "|||" (y :: y' :: ys))
      with (y ++ String "|" ("||" ++ String.concat "|||" (y' :: ys)))%string in H.
    apply append_bar_inj in H; try assumption. destruct H as [<- H].
    injection H as H. f_equal. apply IH; simpl; auto.
Qed.

(** The planner returns whenever no joined key is a name inherited from
    [Object.prototype]. *)
Lemma calculateMerges_returns (LocalTZA : Z -> Z) (records : list IRecord) :
  Forall (fun r => inherited (groupKey r) = false) records ->
  exists ps, calculateMerges LocalTZA records = Normal ps.
Proof.
  intros H. unfold calculateMerges.
  destruct (groupAll_returns groupKey records [] H) as [groups ->].
  eexists. reflexivity.
Qed.

(** For records as the caller builds them - one value per grouping field,
    none containing "|" - different key sequences are never merged. *)
Lemma grouping_by_sequence (LocalTZA : Z -> Z) (records : list IRecord)
  (ps : list MergeProposal) (p : MergeProposal) (r1 r2 : IRecord) :
  calculateMerges LocalTZA records = Normal ps -> In p ps ->
  List.length (groupKeys r1) = List.length (groupKeys r2) ->
  Forall (fun s => hasBar s = false) (groupKeys r1) ->
  Forall (fun s => hasBar s = false) (groupKeys r2) ->
  groupKeys r1 <> groupKeys r2 ->
  ~ (In r1 (originalRecords p) /\ In r2 (originalRecords p)).
Proof.
  intros Hc Hp Hlen Hb1 Hb2 Hne [H1 H2].
  destruct (calculateMerges_origin _ _ _ _ Hc Hp) as (k & _ & He).
  apply EmittedFor_shape in He.
  destruct He as (r0 & r1' & rest & Ho & _ & _ & _ & _ & _ & Hkey & _).
  rewrite <- Ho in Hkey. rewrite Forall_forall in Hkey.
  apply Hne, join_injective; try assumption.
  change (groupKey r1 = groupKey r2).
  rewrite (Hkey r1 H1), (Hkey r2 H2). reflexivity.
Qed.

(** ** Isolated records *)


Section Isolated.

Variable LocalTZA : Z -> Z.
Variable k : string.



End Isolated.



(** ** Two-record inputs *)

Lemma DateString_eqb_refl (d : DateString) : DateString_eqb d d = true.
Proof. destruct d; simpl; [reflexivity | apply Z.eqb_refl]. Qed.

Lemma DateString_eqb_eq (a b : DateString) :
  DateString_eqb a b = true <-> a = b.
Proof.
  destruct a, b; simpl; try (split; [discriminate | discriminate]);
    try (split; reflexivity).
  rewrite Z.eqb_eq. split; [intros ->; reflexivity | intros [= ->]; reflexivity].
Qed.

Lemma objectValues_single {V : Type} (k : string) (v : V) :
  objectValues [(k, v)] = [v].
Proof. unfold objectValues. simpl. destruct (arrayIndex k); reflexivity. Qed.

(** Grouping two records of one key that is not inherited. *)
Lemma groupAll_pair {R : Type} (keyOf : R -> string) (r1 r2 : R) :
  inherited (keyOf r1) = false -> keyOf r1 = keyOf r2 ->
  groupAll keyOf [r1; r2] [] = Normal [(keyOf r1, [r1; r2])].
Proof.
  intros Hinh Hkey. simpl. unfold groupStep. simpl. rewrite Hinh. simpl.
  rewrite <- Hkey, String.eqb_refl. reflexivity.
Qed.

Lemma finalizeProposal_pair (r1 r2 : IRecord) :
  finalizeProposal (absorb (newProposal r1) r2) = mergedPair r1 r2.
Proof.
  unfold finalizeProposal, mergedPair.
  cbn [originalRecords absorb newProposal app newStart newEnd baseRecordId
       recordsToDelete validation].
  rewrite sum_durations.
  destruct (forallb hasDuration [r1; r2]); reflexivity.
Qed.

Lemma processGroup_pair (LocalTZA : Z -> Z) (r1 r2 : IRecord) :
  start r1 <= start r2 ->
  processGroup LocalTZA [] [r1; r2] =
  if continuous LocalTZA r1 r2 then [mergedPair r1 r2] else [].
Proof.
  intros Hle. unfold processGroup. simpl.
  apply Z.leb_le in Hle. rewrite Hle. simpl.
  change (isSequential (newProposal r1) r2
          && isSameDay LocalTZA (newProposal r1) r2)
    with (continuous LocalTZA r1 r2).
  destruct (continuous LocalTZA r1 r2); [|reflexivity].
  unfold pushIfMerged. simpl. rewrite finalizeProposal_pair. reflexivity.
Qed.

Lemma processGroup_pair_swapped (LocalTZA : Z -> Z) (r1 r2 : IRecord) :
  start r1 < start r2 ->
  processGroup LocalTZA [] [r2; r1] = processGroup LocalTZA [] [r1; r2].
Proof.
  intros Hlt. unfold processGroup. simpl.
  assert (H1 : (start r2 <=? start r1) = false) by (apply Z.leb_gt; lia).
  assert (H2 : (start r1 <=? start r2) = true) by (apply Z.leb_le; lia).
  rewrite H1, H2. reflexivity.
Qed.

Lemma calculateMerges_pair (LocalTZA : Z -> Z) (r1 r2 : IRecord) :
  inherited (groupKey r1) = false ->
  groupKey r1 = groupKey r2 ->
  start r1 <= start r2 ->
  calculateMerges LocalTZA [r1; r2] =
  Normal (if continuous LocalTZA r1 r2 then [mergedPair r1 r2] else []).
Proof.
  intros Hinh Hkey Hle. unfold calculateMerges.
  rewrite groupAll_pair, objectValues_single by assumption. simpl.
  rewrite processGroup_pair by assumption. reflexivity.
Qed.

Lemma calculateMerges_pair_swapped (LocalTZA : Z -> Z) (r1 r2 : IRecord) :
  inherited (groupKey r1) = false ->
  groupKey r1 = groupKey r2 ->
  start r1 < start r2 ->
  calculateMerges LocalTZA [r2; r1] =
  Normal (if continuous LocalTZA r1 r2 then [mergedPair r1 r2] else []).
Proof.
  intros Hinh Hkey Hlt. unfold calculateMerges.
  rewrite groupAll_pair, objectValues_single by congruence. simpl.
  rewrite processGroup_pair_swapped, processGroup_pair by lia. reflexivity.
Qed.

(** The same for the first revision, which tests the tolerance alone. *)
Lemma V1_processGroup_pair (r1 r2 : V1.IRecord) :
  V1.start r1 <= V1.start r2 ->
  V1.processGroup [] [r1; r2] =
  if Z.abs (V1.start r2 - V1.end_ r1) <? 1000 then [mergedPair1 r1 r2] else [].
Proof.
  intros Hle. unfold V1.processGroup. simpl.
  apply Z.leb_le in Hle. rewrite Hle. simpl.
  destruct (Z.abs (V1.start r2 - V1.end_ r1) <? 1000); reflexivity.
Qed.

Lemma V1_processGroup_pair_swapped (r1 r2 : V1.IRecord) :
  V1.start r1 < V1.start r2 ->
  V1.processGroup [] [r2; r1] = V1.processGroup [] [r1; r2].
Proof.
  intros Hlt. unfold V1.processGroup. simpl.
  assert (H1 : (V1.start r2 <=? V1.start r1) = false) by (apply Z.leb_gt; lia).
  assert (H2 : (V1.start r1 <=? V1.start r2) = true) by (apply Z.leb_le; lia).
  rewrite H1, H2. reflexivity.
Qed.

Lemma V1_calculateMerges_pair (r1 r2 : V1.IRecord) :
  inherited (V1.groupKey r1) = false ->
  V1.groupKey r1 = V1.groupKey r2 ->
  V1.start r1 <= V1.start r2 ->
  V1.calculateMerges [r1; r2] =
  Normal (if Z.abs (V1.start r2 - V1.end_ r1) <? 1000
          then [mergedPair1 r1 r2] else []).
Proof.
  intros Hinh Hkey Hle. unfold V1.calculateMerges.
  rewrite groupAll_pair, objectValues_single by assumption. simpl.
  rewrite V1_processGroup_pair by assumption. reflexivity.
Qed.

Lemma V1_calculateMerges_pair_swapped (r1 r2 : V1.IRecord) :
  inherited (V1.groupKey r1) = false ->
  V1.groupKey r1 = V1.groupKey r2 ->
  V1.start r1 < V1.start r2 ->
  V1.calculateMerges [r2; r1] =
  Normal (if Z.abs (V1.start r2 - V1.end_ r1) <? 1000
          then [mergedPair1 r1 r2] else []).
Proof.
  intros Hinh Hkey Hlt. unfold V1.calculateMerges.
  rewrite groupAll_pair, objectValues_single by congruence. simpl.
  rewrite V1_processGroup_pair_swapped, V1_processGroup_pair by lia.
  reflexivity.
Qed.

(** ** The tolerance window *)

(** Two records in chronological order merge at a gap of 999 and do not at
    a gap of 1000 or more, whenever the bucket key is not inherited from
    [Object.prototype]; first for the current revision, then for the
    first one. *)
Lemma tolerance_boundary_pair (LocalTZA : Z -> Z) (r1 r2 : IRecord) :
  inherited (groupKey r1) = false ->
  groupKey r1 = groupKey r2 ->
  toDateString LocalTZA (start r1) = toDateString LocalTZA (start r2) ->
  start r1 <= start r2 ->
  (start r2 - end_ r1 = 999 ->
   calculateMerges LocalTZA [r1; r2] = Normal [mergedPair r1 r2]) /\
  (1000 <= start r2 - end_ r1 ->
   calculateMerges LocalTZA [r1; r2] = Normal []).
Proof.
  intros Hinh Hkey Hday Hle.
  rewrite calculateMerges_pair by assumption.
  unfold continuous. rewrite Hday, DateString_eqb_refl, andb_true_r.
  split; intros Hgap.
  - replace (Z.abs (start r2 - end_ r1) <? 1000) with true; [reflexivity|].
    symmetry. apply Z.ltb_lt. lia.
  - replace (Z.abs (start r2 - end_ r1) <? 1000) with false; [reflexivity|].
    symmetry. apply Z.ltb_ge. lia.
Qed.

Lemma V1_tolerance_boundary_pair (r1 r2 : V1.IRecord) :
  inherited (V1.groupKey r1) = false ->
  V1.groupKey r1 = V1.groupKey r2 ->
  V1.start r1 <= V1.start r2 ->
  (V1.start r2 - V1.end_ r1 = 999 ->
   V1.calculateMerges [r1; r2] = Normal [mergedPair1 r1 r2]) /\
  (1000 <= V1.start r2 - V1.end_ r1 ->
   V1.calculateMerges [r1; r2] = Normal []).
Proof.
  intros Hinh Hkey Hle.
  rewrite V1_calculateMerges_pair by assumption.
  split; intros Hgap.
  - replace (Z.abs (V1.start r2 - V1.end_ r1) <? 1000) with true; [reflexivity|].
    symmetry. apply Z.ltb_lt. lia.
  - replace (Z.abs (V1.start r2 - V1.end_ r1) <? 1000) with false;
      [reflexivity|].
    symmetry. apply Z.ltb_ge. lia.
Qed.

(** C4, at a failing input.  [protoA] and [protoB] are in the same group,
    on the same day, and [protoB] starts 999 ms after [protoA] ends; the
    claim asks for one merged proposal, but the bucket key "constructor"
    reads as [Object.prototype.constructor], no array is created, and
    [push] throws - in both revisions. *)
Theorem tolerance_inherited_key_throws :
  groupKey protoA = groupKey protoB /\
  toDateString (fixedZone 0) (start protoA)
    = toDateString (fixedZone 0) (start protoB) /\
  start protoB - end_ protoA = 999 /\
  calculateMerges (fixedZone 0) [protoA; protoB] = Throw TypeError /\
  V1.calculateMerges [protoA1; protoB1] = Throw TypeError.
Proof. repeat split. Qed.

(** Counterexample to C6 as stated.  [overlapB] starts half an hour before
    the run opened by [overlapA] ends, on the same day; it is not
    sequential, it is not absorbed, and no proposal comes out. *)
Lemma overlap_not_absorbed :
  start overlapB < newEnd (newProposal overlapA) /\
  isSameDay (fixedZone 0) (newProposal overlapA) overlapB = true /\
  isSequential (newProposal overlapA) overlapB = false /\
  loopBody (fixedZone 0) ([], Some (newProposal overlapA)) overlapB
    = ([], Some (newProposal overlapB)) /\
  calculateMerges (fixedZone 0) [overlapA; overlapB] = Normal [].
Proof. repeat split. Qed.

(** C6, amended.  In the Open state, a candidate of the same day whose
    start precedes the accumulator's [newEnd] by less than 1000 units is
    sequential and is absorbed; one whose start precedes it by 1000 units
    or more is not sequential and opens a new run. *)
Theorem overlap_within_tolerance (LocalTZA : Z -> Z)
  (proposals : list MergeProposal) (p : MergeProposal) (record : IRecord) :
  start record < newEnd p ->
  isSameDay LocalTZA p record = true ->
  (newEnd p - start record < 1000 ->
   isSequential p record = true /\
   loopBody LocalTZA (proposals, Some p) record
     = (proposals, Some (absorb p record))) /\
  (1000 <= newEnd p - start record ->
   isSequential p record = false /\
   loopBody LocalTZA (proposals, Some p) record
     = (pushIfMerged proposals p, Some (newProposal record))).
Proof.
  intros Hlt Hday. split; intros Hgap.
  - assert (Hseq : isSequential p record = true)
      by (unfold isSequential; apply Z.ltb_lt; lia).
    split; [exact Hseq|]. simpl. rewrite Hseq, Hday. reflexivity.
  - assert (Hseq : isSequential p record = false)
      by (unfold isSequential; apply Z.ltb_ge; lia).
    split; [exact Hseq|]. simpl. rewrite Hseq. reflexivity.
Qed.

Lemma overlap_within_tolerance_witness :
  start nestedB < newEnd (newProposal nestedA) /\
  isSameDay (fixedZone 0) (newProposal nestedA) nestedB = true /\
  newEnd (newProposal nestedA) - start nestedB < 1000 /\
  isSequential (newProposal nestedA) nestedB = true /\
  loopBody (fixedZone 0) ([], Some (newProposal nestedA)) nestedB
    = ([], Some (absorb (newProposal nestedA) nestedB)).
Proof.
  split; [reflexivity|]. split; [reflexivity|]. split; [reflexivity|].
  apply (overlap_within_tolerance (fixedZone 0) [] (newProposal nestedA)
           nestedB); reflexivity.
Defined.

(** ** The day boundary *)

Lemma localClock_toDateString (LocalTZA : Z -> Z) (t day ms : Z) :
  localClock LocalTZA t = Some (day, ms) ->
  toDateString LocalTZA t = CalendarDay day.
Proof.
  unfold localClock, toDateString. destruct (validTime t); [|discriminate].
  intros [= <- _]. reflexivity.
Qed.

(** Counterexample to C7 as stated.  On a UTC host [midnightA] starts at
    23:59:59.500 of day 19676 and [midnightB] at 00:00:00.500 of day 19677,
    one second later, in the same group.  The revision without the same-day
    check does not merge them: [midnightA] ends when it starts, exactly
    1000 ms before [midnightB] starts.  Nor does it merge [midnightLong],
    which starts like [midnightA] and lasts an hour. *)
Lemma midnight_pair_not_merged :
  localClock (fixedZone 0) (V1.start midnightA) = Some (19676, 86399500) /\
  localClock (fixedZone 0) (V1.start midnightLong) = Some (19676, 86399500) /\
  localClock (fixedZone 0) (V1.start midnightB) = Some (19677, 500) /\
  V1.start midnightB - V1.start midnightA = 1000 /\
  V1.groupKeys midnightA = V1.groupKeys midnightB /\
  V1.groupKeys midnightLong = V1.groupKeys midnightB /\
  V1.calculateMerges [midnightA; midnightB] = Normal [] /\
  V1.calculateMerges [midnightLong; midnightB] = Normal [].
Proof. repeat split. Qed.

(** C7, amended.  Take two records of one group, the first starting at
    23:59:59.500 of local day [D], the second one second later at
    00:00:00.500 of day [D + 1], the bucket key not being a name inherited
    from [Object.prototype].  The current revision, which checks the day,
    never merges them.  The revision without the check merges them when the
    second start is less than 1000 units away from the first record's end,
    and does not otherwise. *)
Theorem same_day_boundary (LocalTZA : Z -> Z) (D : Z) (i1 i2 : string)
  (s1 e1 e2 : Z) (g : list string) (d1 d2 : option JSNumber) :
  inherited (join "|||" g) = false ->
  localClock LocalTZA s1 = Some (D, 86399500) ->
  localClock LocalTZA (s1 + 1000) = Some (D + 1, 500) ->
  let r1 := mkRecord i1 s1 e1 g d1 in
  let r2 := mkRecord i2 (s1 + 1000) e2 g d2 in
  let q1 := mkRecord1 i1 s1 e1 g in
  let q2 := mkRecord1 i2 (s1 + 1000) e2 g in
  calculateMerges LocalTZA [r1; r2] = Normal [] /\
  calculateMerges LocalTZA [r2; r1] = Normal [] /\
  (Z.abs (s1 + 1000 - e1) < 1000 ->
   V1.calculateMerges [q1; q2] = Normal [mergedPair1 q1 q2] /\
   V1.calculateMerges [q2; q1] = Normal [mergedPair1 q1 q2]) /\
  (1000 <= Z.abs (s1 + 1000 - e1) ->
   V1.calculateMerges [q1; q2] = Normal [] /\
   V1.calculateMerges [q2; q1] = Normal []).
Proof.
  intros Hinh H1 H2 r1 r2 q1 q2.
  apply localClock_toDateString in H1, H2.
  assert (Hc : continuous LocalTZA r1 r2 = false).
  { unfold continuous, r1, r2. simpl. rewrite H1, H2. simpl.
    replace (D =? D + 1) with false by (symmetry; apply Z.eqb_neq; lia).
    apply andb_false_r. }
  rewrite calculateMerges_pair, calculateMerges_pair_swapped, Hc;
    try reflexivity; try exact Hinh; try (unfold r1, r2; simpl; lia).
  rewrite V1_calculateMerges_pair, V1_calculateMerges_pair_swapped;
    try reflexivity; try exact Hinh; try (unfold q1, q2; simpl; lia).
  unfold q1, q2. simpl V1.start. simpl V1.end_.
  split; [reflexivity|]. split; [reflexivity|]. split; intros Hgap.
  - apply Z.ltb_lt in Hgap. rewrite Hgap. split; reflexivity.
  - apply Z.ltb_ge in Hgap. rewrite Hgap. split; reflexivity.
Qed.

Lemma same_day_boundary_witness :
  inherited (join "|||" ["X"]) = false /\
  localClock (fixedZone 0) 1700092799500 = Some (19676, 86399500) /\
  localClock (fixedZone 0) (1700092799500 + 1000) = Some (19676 + 1, 500) /\
  calculateMerges (fixedZone 0)
    [mkRecord "A" 1700092799500 1700092800000 ["X"] None;
     mkRecord "B" (1700092799500 + 1000) 1700092900000 ["X"] None]
    = Normal [] /\
  Z.abs (1700092799500 + 1000 - 1700092800000) < 1000 /\
  V1.calculateMerges
    [mkRecord1 "A" 1700092799500 1700092800000 ["X"];
     mkRecord1 "B" (1700092799500 + 1000) 1700092900000 ["X"]]
  = Normal [mergedPair1 (mkRecord1 "A" 1700092799500 1700092800000 ["X"])
              (mkRecord1 "B" (1700092799500 + 1000) 1700092900000 ["X"])].
Proof.
  split; [reflexivity|]. split; [reflexivity|]. split; [reflexivity|].
  destruct (same_day_boundary (fixedZone 0) 19676 "A" "B" 1700092799500
              1700092800000 1700092900000 ["X"] None None
              eq_refl eq_refl eq_refl) as (H1 & _ & H3 & _).
  split; [exact H1|]. split; [reflexivity|]. apply (proj1 (H3 eq_refl)).
Defined.

(** ** When the planner throws *)

Section ThrowFacts.

Context {R : Type} (keyOf : R -> string).

Lemma groupStep_keys_safe (groups groups' : Obj (list R)) (r : R) :
  Forall (fun kv => inherited (fst kv) = false) groups ->
  groupStep keyOf groups r = Normal groups' ->
  Forall (fun kv => inherited (fst kv) = false) groups'.
Proof.
  intros Hsafe. unfold groupStep.
  destruct (ownLookup groups (keyOf r)) as [bucket|] eqn:L.
  - intros [= <-]. apply Forall_forall. intros [k b] Hin.
    assert (Hk : In k (map fst (ownUpdate groups (keyOf r) (bucket ++ [r]))))
      by (apply (in_map fst) in Hin; exact Hin).
    rewrite ownUpdate_keys in Hk. apply in_map_iff in Hk.
    destruct Hk as ([k' b'] & Hk' & Hin'). simpl in Hk'. subst k'.
    rewrite Forall_forall in Hsafe. apply (Hsafe _ Hin').
  - destruct (inherited (keyOf r)) eqn:E; [discriminate|]. intros [= <-].
    apply Forall_app. split; [exact Hsafe|]. constructor; [exact E | constructor].
Qed.

Lemma groupStep_throws_iff (groups : Obj (list R)) (r : R) :
  Forall (fun kv => inherited (fst kv) = false) groups ->
  groupStep keyOf groups r = Throw TypeError <-> inherited (keyOf r) = true.
Proof.
  intros Hsafe. unfold groupStep.
  destruct (ownLookup groups (keyOf r)) as [bucket|] eqn:L.
  - apply ownLookup_Some in L. rewrite Forall_forall in Hsafe.
    specialize (Hsafe _ L). simpl in Hsafe. rewrite Hsafe.
    split; discriminate.
  - destruct (inherited (keyOf r)); split; try reflexivity; discriminate.
Qed.

Lemma groupAll_throws_iff (rs : list R) :
  forall groups,
    Forall (fun kv => inherited (fst kv) = false) groups ->
    groupAll keyOf rs groups = Throw TypeError <->
    Exists (fun r => inherited (keyOf r) = true) rs.
Proof.
  induction rs as [|r rs IH]; simpl; intros groups Hsafe.
  - split; [discriminate | intros H; inversion H].
  - pose proof (groupStep_throws_iff groups r Hsafe) as Hstep.
    destruct (groupStep keyOf groups r) as [groups'|e] eqn:E.
    + rewrite (IH groups' (groupStep_keys_safe _ _ _ Hsafe E)).
      split; [intros H; right; exact H|].
      intros H. apply Exists_cons in H. destruct H as [H|H]; [|exact H].
      apply Hstep in H. discriminate.
    + destruct e. split; [intros _; left; apply Hstep; reflexivity | reflexivity].
Qed.

End ThrowFacts.

(** X1.  Both revisions of [calculateMerges] throw exactly when the joined
    key of some record names a property inherited from [Object.prototype];
    the error is a [TypeError], and otherwise a list of proposals is
    returned. *)
Theorem calculateMerges_throws_iff (LocalTZA : Z -> Z)
  (records : list IRecord) (records1 : list V1.IRecord) :
  (calculateMerges LocalTZA records = Throw TypeError <->
   Exists (fun r => inherited (groupKey r) = true) records) /\
  (V1.calculateMerges records1 = Throw TypeError <->
   Exists (fun r => inherited (V1.groupKey r) = true) records1) /\
  (Forall (fun r => inherited (groupKey r) = false) records ->
   exists ps, calculateMerges LocalTZA records = Normal ps) /\
  (Forall (fun r => inherited (V1.groupKey r) = false) records1 ->
   exists ps, V1.calculateMerges records1 = Normal ps).
Proof.
  split; [|split; [|split]].
  - rewrite <- (groupAll_throws_iff groupKey records []) by constructor.
    unfold calculateMerges.
    destruct (groupAll groupKey records []) as [g|[]];
      split; try reflexivity; discriminate.
  - rewrite <- (groupAll_throws_iff V1.groupKey records1 []) by constructor.
    unfold V1.calculateMerges.
    destruct (groupAll V1.groupKey records1 []) as [g|[]];
      split; try reflexivity; discriminate.
  - apply calculateMerges_returns.
  - intros H. unfold V1.calculateMerges.
    destruct (groupAll_returns V1.groupKey records1 [] H) as [groups ->].
    eexists. reflexivity.
Qed.

(** ** Where the records go *)

Lemma insertIndexed_perm {V : Type} (e : N * V) (l : list (N * V)) :
  Permutation (insertIndexed e l) (e :: l).
Proof.
  induction l as [|y l IH]; simpl; [reflexivity|].
  destruct (fst e <=? fst y)%N; [reflexivity|].
  rewrite IH. apply perm_swap.
Qed.

(** [Object.values] enumerates every own value once. *)
Lemma objectValues_perm {V : Type} (o : Obj V) :
  Permutation (objectValues o) (map snd o).
Proof.
  unfold objectValues. induction o as [|[k v] o IH]; simpl; [reflexivity|].
  destruct (arrayIndex k) as [n|].
  - rewrite insertIndexed_perm. simpl. apply perm_skip, IH.
  - rewrite <- Permutation_middle. apply perm_skip, IH.
Qed.

Lemma ownUpdate_concat {R : Type} (o : Obj (list R)) (key : string)
  (bucket : list R) (r : R) :
  ownLookup o key = Some bucket ->
  Permutation (List.concat (map snd (ownUpdate o key (bucket ++ [r]))))
              (List.concat (map snd o) ++ [r]).
Proof.
  induction o as [|[k b] o IH]; simpl; [discriminate|].
  destruct (String.eqb k key).
  - intros [= ->]. simpl. rewrite <- !app_assoc.
    apply Permutation_app_head, Permutation_app_comm.
  - intros H. simpl. rewrite <- app_assoc.
    apply Permutation_app_head, IH, H.
Qed.

Lemma groupAll_perm {R : Type} (keyOf : R -> string) (rs : list R) :
  forall groups groups',
    groupAll keyOf rs groups = Normal groups' ->
    Permutation (List.concat (map snd groups')) (List.concat (map snd groups) ++ rs).
Proof.
  induction rs as [|r rs IH]; simpl; intros groups groups'.
  - intros [= <-]. rewrite app_nil_r. reflexivity.
  - destruct (groupStep keyOf groups r) as [g1|e] eqn:E; [|discriminate].
    intros H. rewrite (IH _ _ H).
    change (r :: rs) with ([r] ++ rs). rewrite app_assoc.
    apply Permutation_app_tail.
    unfold groupStep in E.
    destruct (ownLookup groups (keyOf r)) as [bucket|] eqn:L.
    + injection E as <-. apply ownUpdate_concat, L.
    + destruct (inherited (keyOf r)); [discriminate|]. injection E as <-.
      rewrite map_app, List.concat_app. simpl. reflexivity.
Qed.

Lemma sortByStart_perm {R : Type} (startOf : R -> Z) (l : list R) :
  Permutation (sortByStart startOf l) l.
Proof.
  induction l as [|x l IH]; simpl; [reflexivity|].
  transitivity (x :: sortByStart startOf l); [|apply perm_skip, IH].
  generalize (sortByStart startOf l) as s. intros s.
  induction s as [|y s IHs]; simpl; [reflexivity|].
  destruct (startOf x <=? startOf y); [reflexivity|].
  rewrite IHs. apply perm_swap.
Qed.

Lemma concat_perm {A : Type} (l l' : list (list A)) :
  Permutation l l' -> Permutation (List.concat l) (List.concat l').
Proof.
  induction 1 as [|x l l' _ IH|x y l|l l' l'' _ IH1 _ IH2]; simpl.
  - reflexivity.
  - apply Permutation_app_head, IH.
  - rewrite !app_assoc. apply Permutation_app_tail, Permutation_app_comm.
  - etransitivity; eassumption.
Qed.

Lemma contributing_app (ps qs : list MergeProposal) :
  contributing (ps ++ qs) = contributing ps ++ contributing qs.
Proof. apply flat_map_app. Qed.

Lemma pushIfMerged_perm (ps : list MergeProposal) (p : MergeProposal) :
  exists rest,
    Permutation (contributing (pushIfMerged ps p) ++ rest)
                (contributing ps ++ originalRecords p).
Proof.
  unfold pushIfMerged.
  destruct (0 <? List.length (recordsToDelete p))%nat.
  - exists []. rewrite contributing_app. simpl.
    destruct (finalizeProposal_fields p) as (_ & _ & _ & _ & ->).
    rewrite !app_nil_r. reflexivity.
  - exists (originalRecords p). reflexivity.
Qed.

Lemma loop_perm (LocalTZA : Z -> Z) (rs : list IRecord) :
  forall ps cur,
  exists rest,
    Permutation
      (contributing (fst (fold_left (loopBody LocalTZA) rs (ps, cur)))
       ++ held (snd (fold_left (loopBody LocalTZA) rs (ps, cur))) ++ rest)
      (contributing ps ++ held cur ++ rs).
Proof.
  induction rs as [|record rs IH]; simpl; intros ps cur.
  - exists []. reflexivity.
  - destruct cur as [p|].
    + destruct (isSequential p record && isSameDay LocalTZA p record).
      * destruct (IH ps (Some (absorb p record))) as [rest H].
        exists rest. rewrite H. simpl. rewrite <- app_assoc. reflexivity.
      * destruct (IH (pushIfMerged ps p) (Some (newProposal record)))
          as [rest1 H1].
        destruct (pushIfMerged_perm ps p) as [rest2 H2].
        exists (rest1 ++ rest2). rewrite !app_assoc in *.
        rewrite H1. simpl held. rewrite <- !app_assoc.
        rewrite (Permutation_app_comm ([record] ++ rs) rest2).
        rewrite !app_assoc. rewrite H2. rewrite <- !app_assoc. reflexivity.
    + destruct (IH ps (Some (newProposal record))) as [rest H].
      exists rest. rewrite H. reflexivity.
Qed.

Lemma processGroup_perm (LocalTZA : Z -> Z) (bucket : list IRecord) :
  exists rest,
    Permutation (contributing (processGroup LocalTZA [] bucket) ++ rest) bucket.
Proof.
  unfold processGroup.
  pose proof (sortByStart_perm start bucket) as Hsort.
  destruct (sortByStart start bucket) as [|r0 rs] eqn:E.
  - exists bucket. reflexivity.
  - destruct (loop_perm LocalTZA (r0 :: rs) [] None) as [rest H].
    destruct (fold_left (loopBody LocalTZA) (r0 :: rs) ([], None))
      as [qs cur]. simpl fst in H. simpl snd in H. simpl in H.
    destruct cur as [p|].
    + destruct (pushIfMerged_perm qs p) as [rest2 H2].
      exists (rest2 ++ rest). rewrite app_assoc, H2, <- app_assoc.
      simpl in H. rewrite H. exact Hsort.
    + exists rest. simpl in H. rewrite H. exact Hsort.
Qed.

Lemma processGroups_perm (LocalTZA : Z -> Z) (buckets : list (list IRecord)) :
  exists rest,
    Permutation
      (contributing (flat_map (processGroup LocalTZA []) buckets) ++ rest)
      (List.concat buckets).
Proof.
  induction buckets as [|b bs IH]; simpl.
  - exists []. reflexivity.
  - destruct IH as [rest1 H1].
    destruct (processGroup_perm LocalTZA b) as [rest2 H2].
    exists (rest2 ++ rest1). rewrite contributing_app.
    apply perm_trans
      with ((contributing (processGroup LocalTZA [] b) ++ rest2)
            ++ (contributing (flat_map (processGroup LocalTZA []) bs) ++ rest1));
      [|apply Permutation_app; assumption].
    rewrite <- !app_assoc. apply Permutation_app_head. rewrite !app_assoc.
    apply Permutation_app_tail, Permutation_app_comm.
Qed.

(** The records of the returned proposals, taken together, are input
    records, each used as often as it was given at most. *)
Lemma calculateMerges_contributing (LocalTZA : Z -> Z)
  (records : list IRecord) (ps : list MergeProposal) :
  calculateMerges LocalTZA records = Normal ps ->
  exists rest, Permutation (contributing ps ++ rest) records.
Proof.
  unfold calculateMerges.
  destruct (groupAll groupKey records []) as [groups|e] eqn:G; [|discriminate].
  intros [= <-]. apply groupAll_perm in G. simpl in G.
  rewrite processGroups_flat. simpl.
  destruct (processGroups_perm LocalTZA (objectValues groups)) as [rest H].
  exists rest. rewrite H, <- G.
  apply concat_perm, objectValues_perm.
Qed.

Lemma calculateMerges_shapes (LocalTZA : Z -> Z) (records : list IRecord)
  (ps : list MergeProposal) :
  calculateMerges LocalTZA records = Normal ps ->
  Forall (fun p => exists k, EmittedFor k p) ps.
Proof.
  intros Hc. apply Forall_forall. intros p Hp.
  destruct (calculateMerges_origin _ _ _ _ Hc Hp) as (k & _ & He).
  exists k. exact He.
Qed.

Lemma touchedIds_contributing (ps : list MergeProposal) :
  Forall (fun p => exists k, EmittedFor k p) ps ->
  touchedIds ps = map id (contributing ps).
Proof.
  induction 1 as [|p ps [k Hp] _ IH]; simpl; [reflexivity|].
  apply EmittedFor_shape in Hp.
  destruct Hp as (r0 & r1 & rest & Ho & Hb & _ & _ & Hd & _).
  rewrite map_app, <- IH, Ho, Hb, Hd. reflexivity.
Qed.

Lemma contributing_length (ps : list MergeProposal) :
  Forall (fun p => exists k, EmittedFor k p) ps ->
  List.length (contributing ps)
  = (List.length (flat_map recordsToDelete ps) + List.length ps)%nat.
Proof.
  induction 1 as [|p ps [k Hp] _ IH]; simpl; [reflexivity|].
  apply EmittedFor_shape in Hp.
  destruct Hp as (r0 & r1 & rest & Ho & _ & _ & _ & Hd & _).
  rewrite !length_app, IH, Ho, Hd. simpl. rewrite length_map. lia.
Qed.

Lemma deletions_length (ps : list MergeProposal) :
  Forall (fun p => exists k, EmittedFor k p) ps ->
  (List.length ps <= List.length (flat_map recordsToDelete ps))%nat.
Proof.
  induction 1 as [|p ps [k Hp] _ IH]; simpl; [lia|].
  apply EmittedFor_shape in Hp.
  destruct Hp as (r0 & r1 & rest & _ & _ & _ & _ & Hd & _).
  rewrite length_app, Hd. simpl. lia.
Qed.

(** X2.  The planner invents no record and uses none twice: the
    [originalRecords] of all returned proposals, put together, are a part
    of the input (as a multiset); in particular every record of a proposal
    is an input record. *)
Theorem records_used_at_most_once (LocalTZA : Z -> Z)
  (records : list IRecord) (ps : list MergeProposal) :
  calculateMerges LocalTZA records = Normal ps ->
  (exists unused,
     Permutation (flat_map originalRecords ps ++ unused) records) /\
  (forall p r, In p ps -> In r (originalRecords p) -> In r records).
Proof.
  intros Hc. destruct (calculateMerges_contributing _ _ _ Hc) as [rest H].
  split; [exists rest; exact H|].
  intros p r Hp Hr. apply (Permutation_in _ H).
  apply in_or_app. left. apply in_flat_map. exists p. split; assumption.
Qed.

Lemma records_used_at_most_once_witness :
  calculateMerges (fixedZone 0) mixedRecords = Normal [sampleProposal] /\
  (exists unused,
     Permutation (flat_map originalRecords [sampleProposal] ++ unused)
                 mixedRecords) /\
  (forall p r, In p [sampleProposal] -> In r (originalRecords p) ->
     In r mixedRecords).
Proof.
  split; [reflexivity|].
  apply (records_used_at_most_once (fixedZone 0) mixedRecords
           [sampleProposal]). reflexivity.
Defined.

(** X3.  Counting: the proposals number at most half the input records,
    and the records to delete together with the records kept as base never
    exceed the input. *)
Theorem proposals_count_bound (LocalTZA : Z -> Z)
  (records : list IRecord) (ps : list MergeProposal) :
  calculateMerges LocalTZA records = Normal ps ->
  (2 * List.length ps <= List.length records)%nat /\
  (List.length (flat_map recordsToDelete ps) + List.length ps
   <= List.length records)%nat.
Proof.
  intros Hc. pose proof (calculateMerges_shapes _ _ _ Hc) as Hs.
  destruct (calculateMerges_contributing _ _ _ Hc) as [rest H].
  apply Permutation_length in H. rewrite length_app in H.
  rewrite (contributing_length ps Hs) in H.
  pose proof (deletions_length ps Hs). lia.
Qed.

Lemma proposals_count_bound_witness :
  calculateMerges (fixedZone 0) mixedRecords = Normal [sampleProposal] /\
  (2 * List.length [sampleProposal] <= List.length mixedRecords)%nat /\
  (List.length (flat_map recordsToDelete [sampleProposal])
   + List.length [sampleProposal] <= List.length mixedRecords)%nat.
Proof.
  split; [reflexivity|].
  apply (proposals_count_bound (fixedZone 0) mixedRecords [sampleProposal]).
  reflexivity.
Defined.

(** X4.  When the input records have pairwise different ids, the ids the
    proposals keep ([baseRecordId]) and delete ([recordsToDelete]) are all
    different: no record is deleted twice, and no record kept by one
    proposal is deleted by another or by its own. *)
Theorem touched_ids_distinct (LocalTZA : Z -> Z)
  (records : list IRecord) (ps : list MergeProposal) :
  NoDup (map id records) ->
  calculateMerges LocalTZA records = Normal ps ->
  NoDup (touchedIds ps).
Proof.
  intros Hnd Hc. pose proof (calculateMerges_shapes _ _ _ Hc) as Hs.
  destruct (calculateMerges_contributing _ _ _ Hc) as [rest H].
  rewrite (touchedIds_contributing ps Hs).
  apply (Permutation_map id) in H. rewrite map_app in H.
  apply Permutation_sym in H. apply (Permutation_NoDup H) in Hnd.
  apply NoDup_app_remove_r in Hnd. exact Hnd.
Qed.

Lemma touched_ids_distinct_witness :
  NoDup (map id mixedRecords) /\
  calculateMerges (fixedZone 0) mixedRecords = Normal [sampleProposal] /\
  NoDup (touchedIds [sampleProposal]).
Proof.
  assert (Hnd : NoDup (map id mixedRecords)).
  { simpl. repeat constructor; simpl; intuition discriminate. }
  split; [exact Hnd|]. split; [reflexivity|].
  apply (touched_ids_distinct (fixedZone 0) mixedRecords [sampleProposal]);
    [exact Hnd | reflexivity].
Defined.

(** ** Why the records of a proposal were merged *)

Lemma chained_snoc (LocalTZA : Z -> Z) (r0 r : IRecord) (rest : list IRecord) :
  forall m,
    chained LocalTZA r0 m rest ->
    Z.abs (start r - fold_left (fun m r => Z.max m (end_ r)) rest m) < 1000 ->
    toDateString LocalTZA (start r0) = toDateString LocalTZA (start r) ->
    chained LocalTZA r0 m (rest ++ [r]).
Proof.
  induction rest as [|x rest IH]; simpl; intros m Hc Hgap Hday.
  - repeat split; assumption.
  - destruct Hc as (Hx & Hdx & Hc). repeat split; try assumption.
    apply IH; assumption.
Qed.

Lemma chained_split (LocalTZA : Z -> Z) (r0 r : IRecord)
  (pre post : list IRecord) :
  forall m,
    chained LocalTZA r0 m (pre ++ r :: post) ->
    Z.abs (start r - fold_left (fun m r => Z.max m (end_ r)) pre m) < 1000 /\
    toDateString LocalTZA (start r0) = toDateString LocalTZA (start r).
Proof.
  induction pre as [|x pre IH]; simpl; intros m Hc.
  - destruct Hc as (H1 & H2 & _). split; assumption.
  - destruct Hc as (_ & _ & Hc). apply IH, Hc.
Qed.

Lemma Chain_newProposal (LocalTZA : Z -> Z) (record : IRecord) :
  Chain LocalTZA (newProposal record).
Proof. exists record, []. simpl. repeat split. Qed.

Lemma Chain_absorb (LocalTZA : Z -> Z) (p : MergeProposal) (record : IRecord) :
  Chain LocalTZA p ->
  isSequential p record && isSameDay LocalTZA p record = true ->
  Chain LocalTZA (absorb p record).
Proof.
  intros (r0 & rest & Ho & Hs & He & Hc) Htest.
  apply andb_true_iff in Htest. destruct Htest as [Hseq Hday].
  unfold isSequential in Hseq. apply Z.ltb_lt in Hseq.
  unfold isSameDay in Hday. apply DateString_eqb_eq in Hday.
  exists r0, (rest ++ [record]). simpl. rewrite Ho.
  repeat split.
  - exact Hs.
  - rewrite maxEnd_snoc, He. reflexivity.
  - apply chained_snoc; [exact Hc | | congruence].
    rewrite He in Hseq. exact Hseq.
Qed.

Lemma Chain_finalizeProposal (LocalTZA : Z -> Z) (p : MergeProposal) :
  Chain LocalTZA p -> Chain LocalTZA (finalizeProposal p).
Proof.
  intros (r0 & rest & Ho & Hs & He & Hc).
  destruct (finalizeProposal_fields p) as (_ & Fs & Fe & _ & Fo).
  exists r0, rest. rewrite Fs, Fe, Fo. repeat split; assumption.
Qed.

Lemma pushIfMerged_Chain (LocalTZA : Z -> Z) (ps : list MergeProposal)
  (p : MergeProposal) :
  Forall (Chain LocalTZA) ps -> Chain LocalTZA p ->
  Forall (Chain LocalTZA) (pushIfMerged ps p).
Proof.
  intros Hps Hp. unfold pushIfMerged.
  destruct (0 <? List.length (recordsToDelete p))%nat; [|exact Hps].
  apply Forall_app. split; [exact Hps|].
  constructor; [apply Chain_finalizeProposal, Hp | constructor].
Qed.

Lemma loop_Chain (LocalTZA : Z -> Z) (rs : list IRecord) :
  forall ps cur,
    Forall (Chain LocalTZA) ps ->
    (forall p, cur = Some p -> Chain LocalTZA p) ->
    Forall (Chain LocalTZA) (fst (fold_left (loopBody LocalTZA) rs (ps, cur))) /\
    (forall p, snd (fold_left (loopBody LocalTZA) rs (ps, cur)) = Some p ->
       Chain LocalTZA p).
Proof.
  induction rs as [|record rs IH]; simpl; intros ps cur Hps Hcur.
  - split; assumption.
  - destruct cur as [p|].
    + destruct (isSequential p record && isSameDay LocalTZA p record) eqn:E.
      * apply IH; [exact Hps|]. intros q [= <-].
        apply Chain_absorb; [apply Hcur; reflexivity | exact E].
      * apply IH.
        -- apply pushIfMerged_Chain; [exact Hps | apply Hcur; reflexivity].
        -- intros q [= <-]. apply Chain_newProposal.
    + apply IH; [exact Hps|]. intros q [= <-]. apply Chain_newProposal.
Qed.

Lemma processGroup_Chain (LocalTZA : Z -> Z) (ps : list MergeProposal)
  (bucket : list IRecord) :
  Forall (Chain LocalTZA) ps ->
  Forall (Chain LocalTZA) (processGroup LocalTZA ps bucket).
Proof.
  intros Hps. unfold processGroup.
  destruct (sortByStart start bucket) as [|r0 rs]; [exact Hps|].
  destruct (loop_Chain LocalTZA (r0 :: rs) ps None Hps) as [H1 H2];
    [discriminate|].
  destruct (fold_left (loopBody LocalTZA) (r0 :: rs) (ps, None)) as [qs cur].
  simpl in H1, H2. destruct cur as [p|]; [|exact H1].
  apply pushIfMerged_Chain; [exact H1 | apply H2; reflexivity].
Qed.

Lemma calculateMerges_Chain (LocalTZA : Z -> Z) (records : list IRecord)
  (ps : list MergeProposal) :
  calculateMerges LocalTZA records = Normal ps -> Forall (Chain LocalTZA) ps.
Proof.
  unfold calculateMerges.
  destruct (groupAll groupKey records []) as [groups|e]; [|discriminate].
  intros [= <-]. generalize (objectValues groups) as buckets.
  assert (Hgen : forall buckets acc, Forall (Chain LocalTZA) acc ->
            Forall (Chain LocalTZA)
              (fold_left (processGroup LocalTZA) buckets acc)).
  { induction buckets as [|b bs IH]; simpl; intros acc Hacc; [exact Hacc|].
    apply IH, processGroup_Chain, Hacc. }
  intros buckets. apply Hgen. constructor.
Qed.

(** X5.  All records of a returned proposal start on the same local
    calendar day as the proposal's [newStart] (or all have an invalid
    date): no proposal spans local midnight by its starts. *)
Theorem proposal_same_day (LocalTZA : Z -> Z) (records : list IRecord)
  (ps : list MergeProposal) (p : MergeProposal) (r : IRecord) :
  calculateMerges LocalTZA records = Normal ps ->
  In p ps -> In r (originalRecords p) ->
  toDateString LocalTZA (start r) = toDateString LocalTZA (newStart p).
Proof.
  intros Hc Hp Hr. apply calculateMerges_Chain in Hc.
  rewrite Forall_forall in Hc. destruct (Hc p Hp) as (r0 & rest & Ho & Hs & _ & Hch).
  rewrite Ho in Hr. rewrite Hs. destruct Hr as [<-|Hr]; [reflexivity|].
  apply in_split in Hr. destruct Hr as (pre & post & ->).
  apply chained_split in Hch. symmetry. apply Hch.
Qed.

Lemma proposal_same_day_witness :
  calculateMerges (fixedZone 0) sampleRecords = Normal [sampleProposal] /\
  In sampleProposal [sampleProposal] /\
  In sampleB (originalRecords sampleProposal) /\
  toDateString (fixedZone 0) (start sampleB)
    = toDateString (fixedZone 0) (newStart sampleProposal).
Proof.
  split; [reflexivity|]. split; [left; reflexivity|].
  split; [right; left; reflexivity|].
  apply (proposal_same_day (fixedZone 0) sampleRecords [sampleProposal]
           sampleProposal sampleB);
    [reflexivity | left; reflexivity | right; left; reflexivity].
Defined.

(** X6.  In a returned proposal every record but the first starts less
    than 1000 units away from the greatest end among the records listed
    before it. *)
Theorem proposal_within_tolerance (LocalTZA : Z -> Z)
  (records : list IRecord) (ps : list MergeProposal) (p : MergeProposal)
  (before after : list IRecord) (r : IRecord) :
  calculateMerges LocalTZA records = Normal ps ->
  In p ps ->
  originalRecords p = before ++ r :: after ->
  before <> [] ->
  exists m, maximum (map end_ before) = Some m /\ Z.abs (start r - m) < 1000.
Proof.
  intros Hc Hp Ho Hne. apply calculateMerges_Chain in Hc.
  rewrite Forall_forall in Hc.
  destruct (Hc p Hp) as (r0 & rest & Ho' & _ & _ & Hch).
  destruct before as [|b0 pre]; [contradiction|].
  rewrite Ho in Ho'. simpl in Ho'. injection Ho' as -> <-.
  exists (maxEnd r0 pre). split; [apply maxEnd_maximum|].
  apply chained_split in Hch. apply Hch.
Qed.

Lemma proposal_within_tolerance_witness :
  calculateMerges (fixedZone 0) sampleRecords = Normal [sampleProposal] /\
  In sampleProposal [sampleProposal] /\
  originalRecords sampleProposal = [sampleA] ++ sampleB :: [] /\
  [sampleA] <> [] /\
  exists m, maximum (map end_ [sampleA]) = Some m /\
            Z.abs (start sampleB - m) < 1000.
Proof.
  split; [reflexivity|]. split; [left; reflexivity|].
  split; [reflexivity|]. split; [discriminate|].
  apply (proposal_within_tolerance (fixedZone 0) sampleRecords
           [sampleProposal] sampleProposal [sampleA] [] sampleB);
    [reflexivity | left; reflexivity | reflexivity | discriminate].
Defined.

(** ** Runs are consecutive and cannot be extended *)

Lemma tests_finalizeProposal (LocalTZA : Z -> Z) (p : MergeProposal)
  (r : IRecord) :
  isSequential (finalizeProposal p) r && isSameDay LocalTZA (finalizeProposal p) r
  = isSequential p r && isSameDay LocalTZA p r.
Proof.
  unfold isSequential, isSameDay.
  destruct (finalizeProposal_fields p) as (_ & -> & -> & _). reflexivity.
Qed.

Lemma pushIfMerged_RunOf (LocalTZA : Z -> Z) (sorted : list IRecord)
  (ps : list MergeProposal) (p : MergeProposal) :
  Forall (RunOf LocalTZA sorted) ps ->
  (exists pre post,
     sorted = pre ++ originalRecords p ++ post /\
     match post with
     | [] => True
     | r :: _ => isSequential p r && isSameDay LocalTZA p r = false
     end) ->
  Forall (RunOf LocalTZA sorted) (pushIfMerged ps p).
Proof.
  intros Hps (pre & post & Hs & Hpost). unfold pushIfMerged.
  destruct (0 <? List.length (recordsToDelete p))%nat; [|exact Hps].
  apply Forall_app. split; [exact Hps|]. constructor; [|constructor].
  exists pre, post.
  destruct (finalizeProposal_fields p) as (_ & _ & _ & _ & ->).
  split; [exact Hs|]. destruct post as [|r post]; [exact I|].
  rewrite tests_finalizeProposal. exact Hpost.
Qed.

Lemma loop_RunOf (LocalTZA : Z -> Z) (sorted : list IRecord)
  (rs : list IRecord) :
  forall done ps cur,
    sorted = done ++ rs ->
    Forall (RunOf LocalTZA sorted) ps ->
    (forall p, cur = Some p -> exists pre, done = pre ++ originalRecords p) ->
    Forall (RunOf LocalTZA sorted)
      (fst (fold_left (loopBody LocalTZA) rs (ps, cur))) /\
    (forall p, snd (fold_left (loopBody LocalTZA) rs (ps, cur)) = Some p ->
       exists pre, sorted = pre ++ originalRecords p).
Proof.
  induction rs as [|record rs IH]; simpl; intros done ps cur Hs Hps Hcur.
  - split; [exact Hps|]. intros p Hp. rewrite app_nil_r in Hs.
    rewrite Hs. apply Hcur, Hp.
  - assert (Hs' : sorted = (done ++ [record]) ++ rs)
      by (rewrite <- app_assoc; exact Hs).
    destruct cur as [p|].
    + destruct (Hcur p eq_refl) as [pre Hpre].
      destruct (isSequential p record && isSameDay LocalTZA p record) eqn:E.
      * apply (IH (done ++ [record])); [exact Hs' | exact Hps|].
        intros q [= <-]. exists pre. simpl. rewrite Hpre, app_assoc.
        reflexivity.
      * apply (IH (done ++ [record])); [exact Hs' | |].
        -- apply pushIfMerged_RunOf; [exact Hps|].
           exists pre, (record :: rs). split; [|exact E].
           rewrite Hs, Hpre, <- app_assoc. reflexivity.
        -- intros q [= <-]. exists done. reflexivity.
    + apply (IH (done ++ [record])); [exact Hs' | exact Hps|].
      intros q [= <-]. exists done. reflexivity.
Qed.

Lemma processGroup_RunOf (LocalTZA : Z -> Z) (bucket : list IRecord) :
  Forall (RunOf LocalTZA (sortByStart start bucket))
         (processGroup LocalTZA [] bucket).
Proof.
  unfold processGroup.
  destruct (sortByStart start bucket) as [|r0 rs] eqn:E; [constructor|].
  destruct (loop_RunOf LocalTZA (r0 :: rs) (r0 :: rs) [] [] None eq_refl)
    as [H1 H2]; [constructor | discriminate |].
  destruct (fold_left (loopBody LocalTZA) (r0 :: rs) ([], None)) as [qs cur].
  simpl in H1, H2. destruct cur as [p|]; [|exact H1].
  apply pushIfMerged_RunOf; [exact H1|].
  destruct (H2 p eq_refl) as [pre Hpre].
  exists pre, []. rewrite app_nil_r. split; [exact Hpre | exact I].
Qed.

(** X7.  Every returned proposal is a maximal run of its group: its
    [originalRecords] stand next to one another, in this order, in the
    group's records sorted by start, and the record that follows them
    there, if there is one, fails the tolerance test or the same-day test
    against the proposal. *)
Theorem proposal_is_maximal_run (LocalTZA : Z -> Z) (records : list IRecord)
  (ps : list MergeProposal) (p : MergeProposal) :
  calculateMerges LocalTZA records = Normal ps -> In p ps ->
  exists k pre post,
    sortByStart start (filter (fun r => String.eqb (groupKey r) k) records)
      = pre ++ originalRecords p ++ post /\
    match post with
    | [] => True
    | r :: _ =>
        (Z.abs (start r - newEnd p) <? 1000)
        && DateString_eqb (toDateString LocalTZA (newStart p))
                          (toDateString LocalTZA (start r)) = false
    end.
Proof.
  intros Hc Hp.
  destruct (calculateMerges_origin _ _ _ _ Hc Hp) as (k & Hin & _).
  pose proof (processGroup_RunOf LocalTZA
                (filter (fun r => String.eqb (groupKey r) k) records)) as HF.
  rewrite Forall_forall in HF. destruct (HF p Hin) as (pre & post & H1 & H2).
  exists k, pre, post. split; [exact H1 | exact H2].
Qed.

Lemma proposal_is_maximal_run_witness :
  calculateMerges (fixedZone 0) mixedRecords = Normal [sampleProposal] /\
  In sampleProposal [sampleProposal] /\
  exists k pre post,
    sortByStart start
      (filter (fun r => String.eqb (groupKey r) k) mixedRecords)
      = pre ++ originalRecords sampleProposal ++ post /\
    match post with
    | [] => True
    | r :: _ =>
        (Z.abs (start r - newEnd sampleProposal) <? 1000)
        && DateString_eqb (toDateString (fixedZone 0) (newStart sampleProposal))
                          (toDateString (fixedZone 0) (start r)) = false
    end.
Proof.
  split; [reflexivity|]. split; [left; reflexivity|].
  apply (proposal_is_maximal_run (fixedZone 0) mixedRecords [sampleProposal]
           sampleProposal); [reflexivity | left; reflexivity].
Defined.

(** ** The merged interval *)

(** X8.  When every input record ends no earlier than it starts, so does
    every returned proposal; its interval covers the interval of each of
    its records, and the [newDuration] of a validation is not negative. *)
Theorem proposal_interval_well_formed (LocalTZA : Z -> Z)
  (records : list IRecord) (ps : list MergeProposal) (p : MergeProposal) :
  Forall (fun r => start r <= end_ r) records ->
  calculateMerges LocalTZA records = Normal ps -> In p ps ->
  newStart p <= newEnd p /\
  (forall r, In r (originalRecords p) ->
     newStart p <= start r /\ end_ r <= newEnd p) /\
  (forall v, validation p = Some v -> 0 <= newDuration v).
Proof.
  intros Hwf Hc Hp.
  destruct (calculateMerges_contributing _ _ _ Hc) as [unused Hperm].
  destruct (calculateMerges_origin _ _ _ _ Hc Hp) as (k & _ & He).
  apply EmittedFor_shape in He.
  destruct He as (r0 & r1 & rest & Ho & _ & Hs & He & _ & Hsort & _ & Hv).
  pose proof (sorted_minimum _ _ Hsort) as Hmin.
  pose proof (maxEnd_maximum r0 (r1 :: rest)) as Hmax.
  apply minimum_spec in Hmin. apply maximum_spec in Hmax.
  destruct Hmin as [_ Hmin], Hmax as [_ Hmax].
  assert (Hcover : forall r, In r (originalRecords p) ->
            newStart p <= start r /\ end_ r <= newEnd p).
  { intros r Hr. rewrite Ho in Hr. rewrite Hs, He. split.
    - apply Hmin, in_map, Hr.
    - apply Hmax, in_map, Hr. }
  assert (Hle : newStart p <= newEnd p).
  { assert (H0 : In r0 (originalRecords p)) by (rewrite Ho; left; reflexivity).
    destruct (Hcover r0 H0) as [_ Hend].
    assert (Hin : In r0 records).
    { apply (Permutation_in _ Hperm), in_or_app. left.
      apply in_flat_map. exists p. split; assumption. }
    rewrite Forall_forall in Hwf. specialize (Hwf r0 Hin). rewrite Hs. lia. }
  split; [exact Hle|]. split; [exact Hcover|].
  intros v. rewrite Hv.
  destruct (forallb hasDuration (originalRecords p)); [|discriminate].
  intros [= <-]. simpl. lia.
Qed.

Lemma proposal_interval_well_formed_witness :
  Forall (fun r => start r <= end_ r) sampleRecords /\
  calculateMerges (fixedZone 0) sampleRecords = Normal [sampleProposal] /\
  In sampleProposal [sampleProposal] /\
  newStart sampleProposal <= newEnd sampleProposal.
Proof.
  assert (Hwf : Forall (fun r => start r <= end_ r) sampleRecords)
    by (repeat constructor; discriminate).
  split; [exact Hwf|]. split; [reflexivity|]. split; [left; reflexivity|].
  apply (proposal_interval_well_formed (fixedZone 0) sampleRecords
           [sampleProposal] sampleProposal Hwf); [reflexivity | left; reflexivity].
Defined.

(** ** [finalizeProposal] on its own *)

(** X9.  On any proposal, [finalizeProposal] changes nothing but the
    [validation] field, running it twice is the same as running it once,
    and when some record has no duration the proposal comes back as it
    was - a validation it already carried is not removed. *)
Theorem finalizeProposal_idempotent (p : MergeProposal) :
  finalizeProposal (finalizeProposal p) = finalizeProposal p /\
  (baseRecordId (finalizeProposal p) = baseRecordId p /\
   newStart (finalizeProposal p) = newStart p /\
   newEnd (finalizeProposal p) = newEnd p /\
   recordsToDelete (finalizeProposal p) = recordsToDelete p /\
   originalRecords (finalizeProposal p) = originalRecords p) /\
  (Exists (fun r => duration r = None) (originalRecords p) ->
   finalizeProposal p = p).
Proof.
  split; [|split].
  - unfold finalizeProposal at 2 3.
    destruct (forallb hasDuration (originalRecords p)) eqn:E.
    + unfold finalizeProposal. simpl. rewrite E. reflexivity.
    + unfold finalizeProposal. rewrite E. reflexivity.
  - apply finalizeProposal_fields.
  - intros Hex. unfold finalizeProposal.
    destruct (forallb hasDuration (originalRecords p)) eqn:E; [|reflexivity].
    apply forallb_hasDuration in E. apply Exists_exists in Hex.
    destruct Hex as (r & Hr & Hnone). rewrite Forall_forall in E.
    exfalso. exact (E r Hr Hnone).
Qed.

(** ** The grouping loop *)

(** X10.  When the grouping loop returns, the buckets split the input: the
    keys are pairwise different, every record sits in the bucket of its
    joined key, and each bucket holds exactly the input records of its key,
    in input order, and is not empty. *)
Theorem grouping_partitions_input {R : Type} (keyOf : R -> string)
  (records : list R) (groups : Obj (list R)) :
  groupAll keyOf records [] = Normal groups ->
  NoDup (map fst groups) /\
  (forall r, In r records ->
     exists bucket, In (keyOf r, bucket) groups /\ In r bucket) /\
  (forall k bucket, In (k, bucket) groups ->
     bucket = filter (fun r => String.eqb (keyOf r) k) records /\
     bucket <> []).
Proof.
  intros H. apply (groupAll_Grouped keyOf records []) in H;
    [|apply Grouped_nil].
  destruct H as (Hnd & Hcov & Hfil). simpl in *.
  split; [exact Hnd|]. split; [|exact Hfil].
  intros r Hr. specialize (Hcov r Hr). apply in_map_iff in Hcov.
  destruct Hcov as ([k b] & Hk & Hin). simpl in Hk. subst k.
  exists b. split; [exact Hin|].
  destruct (Hfil _ _ Hin) as [-> _]. apply filter_In. split; [exact Hr|].
  apply String.eqb_refl.
Qed.

Lemma grouping_partitions_input_witness :
  groupAll groupKey mixedRecords []
    = Normal [("Y", [loneY2; loneY1]); ("X", [sampleC; sampleB; sampleA])] /\
  NoDup (map fst [("Y", [loneY2; loneY1]); ("X", [sampleC; sampleB; sampleA])]).
Proof.
  split; [reflexivity|].
  apply (grouping_partitions_input groupKey mixedRecords
           [("Y", [loneY2; loneY1]); ("X", [sampleC; sampleB; sampleA])]).
  reflexivity.
Defined.

(** ** The first revision *)

Lemma maxEnd1_maximum (r0 : V1.IRecord) (rest : list V1.IRecord) :
  maximum (map V1.end_ (r0 :: rest)) = Some (maxEnd1 r0 rest).
Proof.
  unfold maxEnd1. simpl. f_equal. generalize (V1.end_ r0) as m.
  induction rest as [|r rest IH]; simpl; intros m; [reflexivity|].
  rewrite <- IH, fold_right_max_init. lia.
Qed.

Lemma sorted_minimum1 (r0 : V1.IRecord) (rest : list V1.IRecord) :
  StronglySorted (leStart V1.start) (r0 :: rest) ->
  minimum (map V1.start (r0 :: rest)) = Some (V1.start r0).
Proof.
  intros Hs. apply StronglySorted_inv in Hs. destruct Hs as [_ Hle].
  simpl. f_equal. induction Hle as [|r rest Hr Hrest IH]; simpl; [reflexivity|].
  rewrite IH. unfold leStart in Hr. lia.
Qed.

Lemma RunShape1_newProposal (k : string) (record : V1.IRecord) :
  V1.groupKey record = k -> RunShape1 k (V1.newProposal record).
Proof.
  intros Hk. exists record, []. simpl.
  repeat split; try reflexivity; repeat constructor; exact Hk.
Qed.

Lemma RunShape1_absorb (k : string) (p : V1.MergeProposal) (record : V1.IRecord) :
  RunShape1 k p -> V1.groupKey record = k ->
  Forall (fun r' => V1.start r' <= V1.start record) (V1.originalRecords p) ->
  RunShape1 k (V1.absorb p record).
Proof.
  intros (r0 & rest & Ho & Hb & Hs & He & Hd & Hsort & Hkey) Hk Hle.
  exists r0, (rest ++ [record]). simpl. rewrite Ho in *.
  repeat split.
  - rewrite Hb. reflexivity.
  - exact Hs.
  - unfold maxEnd1. rewrite fold_left_app. simpl. rewrite He. reflexivity.
  - rewrite Hd, map_app. reflexivity.
  - change (r0 :: rest ++ [record]) with ((r0 :: rest) ++ [record]).
    apply StronglySorted_snoc; assumption.
  - change (r0 :: rest ++ [record]) with ((r0 :: rest) ++ [record]).
    apply Forall_app. split; [exact Hkey | constructor; [exact Hk | constructor]].
Qed.

Lemma V1_pushIfMerged_Emitted (k : string) (ps : list V1.MergeProposal)
  (p : V1.MergeProposal) :
  Forall (EmittedFor1 k) ps -> RunShape1 k p ->
  Forall (EmittedFor1 k) (V1.pushIfMerged ps p).
Proof.
  intros Hps Hp. unfold V1.pushIfMerged.
  destruct (0 <? List.length (V1.recordsToDelete p))%nat eqn:E; [|exact Hps].
  apply Forall_app. split; [exact Hps|]. constructor; [|constructor].
  split; [exact Hp|]. intros Hnil. rewrite Hnil in E. discriminate.
Qed.

Lemma V1_loop_invariant (k : string) (rs : list V1.IRecord) :
  forall (ps : list V1.MergeProposal) (cur : option V1.MergeProposal),
    StronglySorted (leStart V1.start) rs ->
    Forall (fun r => V1.groupKey r = k) rs ->
    Forall (EmittedFor1 k) ps ->
    (forall p, cur = Some p ->
       RunShape1 k p /\
       Forall (fun r => Forall (fun r' => V1.start r' <= V1.start r)
                               (V1.originalRecords p)) rs) ->
    Forall (EmittedFor1 k) (fst (fold_left V1.loopBody rs (ps, cur))) /\
    (forall p, snd (fold_left V1.loopBody rs (ps, cur)) = Some p ->
       RunShape1 k p).
Proof.
  induction rs as [|record rs IH]; simpl; intros ps cur Hs Hk Hps Hcur.
  - split; [exact Hps|]. intros p Hp. apply Hcur, Hp.
  - apply StronglySorted_inv in Hs. destruct Hs as [Hs' Hle].
    apply Forall_cons_iff in Hk. destruct Hk as [Hk1 Hk'].
    assert (Hnew : Forall (fun r => Forall (fun r' => V1.start r' <= V1.start r)
                              [record]) rs).
    { eapply Forall_impl; [|exact Hle]. intros r Hr.
      constructor; [exact Hr | constructor]. }
    destruct cur as [p|].
    + destruct (Hcur p eq_refl) as [Hp Hall].
      apply Forall_cons_iff in Hall. destruct Hall as [Hrec Hrest].
      destruct (Z.abs (V1.start record - V1.newEnd p) <? 1000).
      * apply IH; try assumption. intros q [= <-]. split.
        -- apply RunShape1_absorb; auto.
        -- simpl. rewrite Forall_forall in *. intros r Hr.
           apply Forall_app. split; [apply Hrest, Hr|].
           specialize (Hnew r Hr). exact Hnew.
      * apply IH; try assumption.
        -- apply V1_pushIfMerged_Emitted; assumption.
        -- intros q [= <-]. split; [apply RunShape1_newProposal, Hk1|].
           exact Hnew.
    + apply IH; try assumption. intros q [= <-].
      split; [apply RunShape1_newProposal, Hk1 | exact Hnew].
Qed.

Lemma V1_processGroup_Emitted (k : string) (ps : list V1.MergeProposal)
  (bucket : list V1.IRecord) :
  Forall (fun r => V1.groupKey r = k) bucket ->
  Forall (fun p => exists k', EmittedFor1 k' p) ps ->
  Forall (fun p => exists k', EmittedFor1 k' p) (V1.processGroup ps bucket).
Proof.
  intros Hk Hps. unfold V1.processGroup.
  pose proof (sortByStart_sorted V1.start bucket) as Hsorted.
  pose proof (sortByStart_Forall V1.start _ bucket Hk) as Hkeys.
  destruct (sortByStart V1.start bucket) as [|r0 rs]; [exact Hps|].
  destruct (V1_loop_invariant k (r0 :: rs) [] None Hsorted Hkeys)
    as [H1 H2]; [constructor | discriminate |].
  assert (Happ : forall l ps0 cur0,
            fold_left V1.loopBody l (ps0, cur0) =
            (ps0 ++ fst (fold_left V1.loopBody l ([], cur0)),
             snd (fold_left V1.loopBody l ([], cur0)))).
  { induction l as [|x l IHl]; simpl; intros ps0 cur0.
    - rewrite app_nil_r. reflexivity.
    - destruct cur0 as [p0|]; [|apply IHl].
      destruct (Z.abs (V1.start x - V1.newEnd p0) <? 1000); [apply IHl|].
      rewrite IHl, (IHl (V1.pushIfMerged [] p0)). unfold V1.pushIfMerged.
      destruct (0 <? List.length (V1.recordsToDelete p0))%nat; simpl;
        [rewrite <- app_assoc; reflexivity | reflexivity]. }
  rewrite Happ.
  destruct (fold_left V1.loopBody (r0 :: rs) ([], None)) as [qs cur].
  simpl in H1, H2. simpl fst. simpl snd.
  assert (Hqs : Forall (fun p => exists k', EmittedFor1 k' p) (ps ++ qs)).
  { apply Forall_app. split; [exact Hps|].
    eapply Forall_impl; [|exact H1]. intros p Hp. exists k. exact Hp. }
  destruct cur as [p|]; [|exact Hqs].
  unfold V1.pushIfMerged.
  destruct (0 <? List.length (V1.recordsToDelete p))%nat eqn:E; [|exact Hqs].
  apply Forall_app. split; [exact Hqs|]. constructor; [|constructor].
  exists k. split; [apply H2; reflexivity|].
  intros Hnil. rewrite Hnil in E. discriminate.
Qed.

Lemma V1_calculateMerges_Emitted (records : list V1.IRecord)
  (ps : list V1.MergeProposal) :
  V1.calculateMerges records = Normal ps ->
  Forall (fun p => exists k, EmittedFor1 k p) ps.
Proof.
  unfold V1.calculateMerges.
  destruct (groupAll V1.groupKey records []) as [groups|e] eqn:G; [|discriminate].
  intros [= <-].
  apply (groupAll_Grouped V1.groupKey records []) in G; [|apply Grouped_nil].
  destruct G as (_ & _ & Hfil).
  assert (Hb : Forall (fun b => exists k, Forall (fun r => V1.groupKey r = k) b)
                 (objectValues groups)).
  { apply Forall_forall. intros b Hb. apply objectValues_In in Hb.
    destruct Hb as [k Hin]. exists k. destruct (Hfil _ _ Hin) as [-> _].
    apply Forall_forall. intros r Hr. apply filter_In in Hr.
    destruct Hr as [_ Hr]. apply String.eqb_eq, Hr. }
  revert Hb. generalize (objectValues groups) as buckets.
  assert (Hgen : forall buckets acc,
            Forall (fun p => exists k, EmittedFor1 k p) acc ->
            Forall (fun b => exists k, Forall (fun r => V1.groupKey r = k) b)
                   buckets ->
            Forall (fun p => exists k, EmittedFor1 k p)
                   (fold_left V1.processGroup buckets acc)).
  { induction buckets as [|b bs IH]; simpl; intros acc Hacc Hbs; [exact Hacc|].
    apply Forall_cons_iff in Hbs. destruct Hbs as [[k Hk] Hbs'].
    apply IH; [|exact Hbs']. eapply V1_processGroup_Emitted; eassumption. }
  intros buckets Hb. apply Hgen; [constructor | exact Hb].
Qed.

(** X11.  The first revision, too, returns no proposal for a single
    record and loses no id: a returned proposal has two records at least,
    its [baseRecordId] is the id of the first one and [recordsToDelete]
    lists the ids of the others, in order. *)
Theorem V1_proposal_conservation (records : list V1.IRecord)
  (ps : list V1.MergeProposal) (p : V1.MergeProposal) :
  V1.calculateMerges records = Normal ps -> In p ps ->
  (2 <= List.length (V1.originalRecords p))%nat /\
  V1.baseRecordId p :: V1.recordsToDelete p
    = map V1.id (V1.originalRecords p).
Proof.
  intros Hc Hp. apply V1_calculateMerges_Emitted in Hc.
  rewrite Forall_forall in Hc. destruct (Hc p Hp) as (k & Hshape & Hne).
  destruct Hshape as (r0 & rest & Ho & Hb & _ & _ & Hd & _).
  rewrite Ho, Hb, Hd. split; [|reflexivity].
  destruct rest; [rewrite Hd in Hne; contradiction | simpl; lia].
Qed.

Lemma V1_proposal_conservation_witness :
  V1.calculateMerges sampleRecords1 = Normal [sampleProposal1] /\
  In sampleProposal1 [sampleProposal1] /\
  (2 <= List.length (V1.originalRecords sampleProposal1))%nat /\
  V1.baseRecordId sampleProposal1 :: V1.recordsToDelete sampleProposal1
    = map V1.id (V1.originalRecords sampleProposal1).
Proof.
  split; [reflexivity|]. split; [left; reflexivity|].
  apply (V1_proposal_conservation sampleRecords1 [sampleProposal1]
           sampleProposal1); [reflexivity | left; reflexivity].
Defined.

(** X12.  In the first revision as well, the records of a returned
    proposal are sorted by start and share one joined key, [newStart] is
    their least start and [newEnd] their greatest end. *)
Theorem V1_proposal_bounds (records : list V1.IRecord)
  (ps : list V1.MergeProposal) (p : V1.MergeProposal) :
  V1.calculateMerges records = Normal ps -> In p ps ->
  StronglySorted (leStart V1.start) (V1.originalRecords p) /\
  minimum (map V1.start (V1.originalRecords p)) = Some (V1.newStart p) /\
  maximum (map V1.end_ (V1.originalRecords p)) = Some (V1.newEnd p) /\
  (forall r1 r2, In r1 (V1.originalRecords p) -> In r2 (V1.originalRecords p) ->
     V1.groupKey r1 = V1.groupKey r2).
Proof.
  intros Hc Hp. apply V1_calculateMerges_Emitted in Hc.
  rewrite Forall_forall in Hc. destruct (Hc p Hp) as (k & Hshape & _).
  destruct Hshape as (r0 & rest & Ho & _ & Hs & He & _ & Hsort & Hkey).
  rewrite Ho, Hs, He. split; [exact Hsort|].
  split; [apply sorted_minimum1, Hsort|].
  split; [apply maxEnd1_maximum|].
  intros r1 r2 H1 H2. rewrite Forall_forall in Hkey.
  rewrite (Hkey r1 H1), (Hkey r2 H2). reflexivity.
Qed.

Lemma V1_proposal_bounds_witness :
  V1.calculateMerges sampleRecords1 = Normal [sampleProposal1] /\
  In sampleProposal1 [sampleProposal1] /\
  minimum (map V1.start (V1.originalRecords sampleProposal1)) = Some 600000 /\
  maximum (map V1.end_ (V1.originalRecords sampleProposal1)) = Some 1200000.
Proof.
  split; [reflexivity|]. split; [left; reflexivity|].
  destruct (V1_proposal_bounds sampleRecords1 [sampleProposal1]
              sampleProposal1 eq_refl (or_introl eq_refl))
    as (_ & Hmin & Hmax & _).
  split; [exact Hmin | exact Hmax].
Defined.

(** ** The two revisions side by side *)

Section MapRecords.

Context {A B : Type} (f : A -> B).

Lemma ownLookup_mapBuckets (o : Obj (list A)) (key : string) :
  ownLookup (mapBuckets f o) key = option_map (map f) (ownLookup o key).
Proof.
  induction o as [|[k v] o IH]; simpl; [reflexivity|].
  destruct (String.eqb k key); [reflexivity | exact IH].
Qed.

Lemma ownUpdate_mapBuckets (o : Obj (list A)) (key : string) (v : list A) :
  ownUpdate (mapBuckets f o) key (map f v) = mapBuckets f (ownUpdate o key v).
Proof.
  induction o as [|[k w] o IH]; simpl; [reflexivity|].
  destruct (String.eqb k key); simpl; [reflexivity | rewrite IH; reflexivity].
Qed.

Lemma groupAll_mapBuckets (keyA : A -> string) (keyB : B -> string)
  (rs : list A) :
  (forall a, keyB (f a) = keyA a) ->
  forall groups,
    groupAll keyB (map f rs) (mapBuckets f groups)
    = mapCompletion (mapBuckets f) (groupAll keyA rs groups).
Proof.
  intros Hkey. induction rs as [|r rs IH]; simpl; intros groups; [reflexivity|].
  unfold groupStep. rewrite Hkey, ownLookup_mapBuckets.
  destruct (ownLookup groups (keyA r)) as [bucket|]; simpl.
  - rewrite <- IH. f_equal. rewrite <- ownUpdate_mapBuckets, map_app.
    reflexivity.
  - destruct (inherited (keyA r)); [reflexivity|].
    rewrite <- IH. f_equal. unfold mapBuckets. rewrite map_app. reflexivity.
Qed.

Lemma insertIndexed_map (e : N * list A) (l : list (N * list A)) :
  map (fun nv => (fst nv, map f (snd nv))) (insertIndexed e l)
  = insertIndexed (fst e, map f (snd e))
      (map (fun nv => (fst nv, map f (snd nv))) l).
Proof.
  induction l as [|y l IH]; simpl; [reflexivity|].
  destruct (fst e <=? fst y)%N; simpl; [reflexivity | rewrite IH; reflexivity].
Qed.

Lemma objectValues_mapBuckets (o : Obj (list A)) :
  objectValues (mapBuckets f o) = map (map f) (objectValues o).
Proof.
  unfold objectValues. rewrite map_app. f_equal.
  - assert (H : indexedProps (mapBuckets f o)
                = map (fun nv => (fst nv, map f (snd nv))) (indexedProps o)).
    { induction o as [|[k v] o IH]; simpl; [reflexivity|].
      destruct (arrayIndex k); [|exact IH].
      rewrite insertIndexed_map, IH. reflexivity. }
    rewrite H, !map_map. reflexivity.
  - induction o as [|[k v] o IH]; simpl; [reflexivity|].
    destruct (arrayIndex k); simpl; [exact IH | rewrite IH; reflexivity].
Qed.

Lemma sortByStart_map (startA : A -> Z) (startB : B -> Z) (l : list A) :
  (forall a, startB (f a) = startA a) ->
  sortByStart startB (map f l) = map f (sortByStart startA l).
Proof.
  intros Hstart. induction l as [|x l IH]; simpl; [reflexivity|].
  rewrite IH. generalize (sortByStart startA l) as s.
  induction s as [|y s IHs]; simpl; [reflexivity|].
  rewrite !Hstart. destruct (startA x <=? startA y); simpl;
    [reflexivity | rewrite IHs; reflexivity].
Qed.

End MapRecords.

Lemma forgetProposal_pushIfMerged (ps : list MergeProposal) (p : MergeProposal) :
  map forgetProposal (pushIfMerged ps p)
  = V1.pushIfMerged (map forgetProposal ps) (forgetProposal p).
Proof.
  unfold pushIfMerged, V1.pushIfMerged. simpl.
  destruct (0 <? List.length (recordsToDelete p))%nat; [|reflexivity].
  rewrite map_app. simpl. f_equal. f_equal. unfold forgetProposal.
  destruct (finalizeProposal_fields p) as (-> & -> & -> & -> & ->).
  reflexivity.
Qed.

Lemma forgetProposal_absorb (p : MergeProposal) (record : IRecord) :
  forgetProposal (absorb p record)
  = V1.absorb (forgetProposal p) (forget record).
Proof.
  unfold forgetProposal, V1.absorb. simpl. rewrite map_app. reflexivity.
Qed.

Lemma loop_forget (LocalTZA : Z -> Z) (day : DateString) (rs : list IRecord) :
  forall ps cur,
    Forall (fun r => toDateString LocalTZA (start r) = day) rs ->
    (forall p, cur = Some p -> toDateString LocalTZA (newStart p) = day) ->
    fold_left V1.loopBody (map forget rs)
      (map forgetProposal ps, option_map forgetProposal cur)
    = (map forgetProposal (fst (fold_left (loopBody LocalTZA) rs (ps, cur))),
       option_map forgetProposal
         (snd (fold_left (loopBody LocalTZA) rs (ps, cur)))).
Proof.
  induction rs as [|record rs IH]; simpl; intros ps cur Hday Hcur;
    [reflexivity|].
  apply Forall_cons_iff in Hday. destruct Hday as [Hrec Hday].
  destruct cur as [p|]; simpl.
  - assert (Hsame : isSameDay LocalTZA p record = true).
    { unfold isSameDay. rewrite (Hcur p eq_refl), Hrec.
      apply DateString_eqb_refl. }
    rewrite Hsame, andb_true_r. unfold isSequential.
    destruct (Z.abs (start record - newEnd p) <? 1000).
    + rewrite <- forgetProposal_absorb.
      apply (IH ps (Some (absorb p record))); [exact Hday|].
      intros q [= <-]. simpl. apply Hcur. reflexivity.
    + rewrite <- forgetProposal_pushIfMerged.
      apply (IH (pushIfMerged ps p) (Some (newProposal record)));
        [exact Hday|]. intros q [= <-]. exact Hrec.
  - apply (IH ps (Some (newProposal record))); [exact Hday|].
    intros q [= <-]. exact Hrec.
Qed.

Lemma processGroup_forget (LocalTZA : Z -> Z) (ps : list MergeProposal)
  (bucket : list IRecord) :
  (forall r r', In r bucket -> In r' bucket ->
     toDateString LocalTZA (start r) = toDateString LocalTZA (start r')) ->
  V1.processGroup (map forgetProposal ps) (map forget bucket)
  = map forgetProposal (processGroup LocalTZA ps bucket).
Proof.
  intros Hday. unfold V1.processGroup, processGroup.
  rewrite (sortByStart_map forget start V1.start) by reflexivity.
  assert (Hall : forall r r', In r (sortByStart start bucket) ->
            In r' (sortByStart start bucket) ->
            toDateString LocalTZA (start r) = toDateString LocalTZA (start r')).
  { intros r r' Hr Hr'. apply sortByStart_In in Hr, Hr'. apply Hday; assumption. }
  destruct (sortByStart start bucket) as [|r0 rs]; [reflexivity|].
  cbn [map].
  assert (HF : Forall (fun r => toDateString LocalTZA (start r)
                               = toDateString LocalTZA (start r0)) (r0 :: rs)).
  { apply Forall_forall. intros r Hr. apply Hall; [exact Hr | left; reflexivity]. }
  pose proof (loop_forget LocalTZA _ (r0 :: rs) ps None HF) as H.
  cbn [map option_map] in H. rewrite H by discriminate.
  destruct (fold_left (loopBody LocalTZA) (r0 :: rs) (ps, None)) as [qs cur].
  simpl. destruct cur as [p|]; simpl; [|reflexivity].
  symmetry. apply forgetProposal_pushIfMerged.
Qed.

(** X13.  The same-day test is the only difference in what the two
    revisions merge: when the records of each group all start on one local
    calendar day, the first revision, given the same records without their
    durations, returns the same proposals in the same order (without the
    validation), and throws when the current one throws. *)
Theorem revisions_agree_within_a_day (LocalTZA : Z -> Z)
  (records : list IRecord) :
  (forall r r', In r records -> In r' records ->
     groupKey r = groupKey r' ->
     toDateString LocalTZA (start r) = toDateString LocalTZA (start r')) ->
  V1.calculateMerges (map forget records)
  = mapCompletion (map forgetProposal) (calculateMerges LocalTZA records).
Proof.
  intros Hday. unfold V1.calculateMerges, calculateMerges.
  change (@nil (string * list V1.IRecord)) with (mapBuckets forget []).
  rewrite (groupAll_mapBuckets forget groupKey V1.groupKey) by reflexivity.
  destruct (groupAll groupKey records []) as [groups|e] eqn:G; simpl;
    [|reflexivity].
  f_equal. rewrite objectValues_mapBuckets.
  apply (groupAll_Grouped groupKey records []) in G; [|apply Grouped_nil].
  destruct G as (_ & _ & Hfil). simpl in Hfil.
  assert (Hb : Forall (fun b => forall r r', In r b -> In r' b ->
                  toDateString LocalTZA (start r)
                  = toDateString LocalTZA (start r'))
                 (objectValues groups)).
  { apply Forall_forall. intros b Hb r r' Hr Hr'.
    apply objectValues_In in Hb. destruct Hb as [k Hin].
    destruct (Hfil _ _ Hin) as [-> _].
    apply filter_In in Hr, Hr'. destruct Hr as [Hr Hk], Hr' as [Hr' Hk'].
    apply String.eqb_eq in Hk, Hk'. apply Hday; congruence. }
  revert Hb. generalize (objectValues groups) as buckets.
  change (@nil V1.MergeProposal) with (map forgetProposal []).
  generalize (@nil MergeProposal) as acc.
  intros acc buckets. revert acc.
  induction buckets as [|b bs IH]; simpl; intros acc Hb; [reflexivity|].
  apply Forall_cons_iff in Hb. destruct Hb as [Hb Hbs].
  rewrite (processGroup_forget LocalTZA) by exact Hb. apply IH, Hbs.
Qed.

Lemma revisions_agree_within_a_day_witness :
  (forall r r', In r mixedRecords -> In r' mixedRecords ->
     groupKey r = groupKey r' ->
     toDateString (fixedZone 0) (start r) = toDateString (fixedZone 0) (start r')) /\
  V1.calculateMerges (map forget mixedRecords)
  = Normal [forgetProposal sampleProposal].
Proof.
  assert (Hday : forall r r', In r mixedRecords -> In r' mixedRecords ->
            groupKey r = groupKey r' ->
            toDateString (fixedZone 0) (start r)
            = toDateString (fixedZone 0) (start r')).
  { intros r r' Hr Hr' _. simpl in Hr, Hr'.
    repeat (destruct Hr as [<-|Hr]; [|]); try contradiction;
      repeat (destruct Hr' as [<-|Hr']; [|]); try contradiction; reflexivity. }
  split; [exact Hday|].
  exact (revisions_agree_within_a_day (fixedZone 0) mixedRecords Hday).
Defined.

(** ** Applying the proposals: [executeMerge] *)

Section ExecuteMergeFacts.

Context {Host : Type} (perform : Host -> App.SdkCall -> option Host).

Lemma mergeLoop_issued (endFieldId : string) (ps : list MergeProposal) :
  forall h,
    (exists rest,
       App.plan endFieldId ps
       = snd (fst (App.mergeLoop Host perform endFieldId h ps)) ++ rest) /\
    (snd (App.mergeLoop Host perform endFieldId h ps) = true ->
     snd (fst (App.mergeLoop Host perform endFieldId h ps))
     = App.plan endFieldId ps).
Proof.
  induction ps as [|p ps IH]; intros h.
  - split; [exists []; reflexivity | reflexivity].
  - change (App.plan endFieldId (p :: ps))
      with (App.callsFor endFieldId p ++ App.plan endFieldId ps).
    unfold App.callsFor. cbn [App.mergeLoop].
    destruct (perform h (App.SetRecord (baseRecordId p) endFieldId (newEnd p)))
      as [h1|].
    + destruct (0 <? List.length (recordsToDelete p))%nat.
      * destruct (perform h1 (App.DeleteRecords (recordsToDelete p))) as [h2|].
        -- destruct (IH h2) as [[rest Hrest] Hok].
           destruct (App.mergeLoop Host perform endFieldId h2 ps)
             as [[h' issued] ok]. cbn [fst snd app] in *. split.
           ++ exists rest. rewrite Hrest. reflexivity.
           ++ intros Hk. rewrite (Hok Hk). reflexivity.
        -- cbn [fst snd app]. split; [|discriminate].
           exists (App.plan endFieldId ps). reflexivity.
      * destruct (IH h1) as [[rest Hrest] Hok].
        destruct (App.mergeLoop Host perform endFieldId h1 ps)
          as [[h' issued] ok]. cbn [fst snd app] in *. split.
        -- exists rest. rewrite Hrest. reflexivity.
        -- intros Hk. rewrite (Hok Hk). reflexivity.
    + cbn [fst snd app]. split; [|discriminate].
      eexists. reflexivity.
Qed.

(** X14.  Whatever the host answers, [executeMerge] ends with [processing]
    off, and the calls it issued are a beginning of the full plan (fetch
    the table, then for each proposal the update and the deletion).  It
    reports success only after the whole plan, with the number of
    proposals, and then empties [merges] and closes the preview; on an
    error it leaves [merges] and the preview as they were, although the
    calls issued before the rejected one have been carried out. *)
Theorem executeMerge_outcome (endFieldId : string) (h : Host)
  (st : App.ExecState) :
  let '(h', issued, st', msg) :=
    App.executeMerge Host perform endFieldId h st in
  App.processing st' = false /\
  (exists rest,
     App.GetActiveTable :: App.plan endFieldId (App.merges st)
     = issued ++ rest) /\
  match msg with
  | App.MessageSuccess n =>
      n = List.length (App.merges st) /\
      issued = App.GetActiveTable :: App.plan endFieldId (App.merges st) /\
      App.merges st' = [] /\ App.previewOpen st' = false
  | App.MessageError =>
      App.merges st' = App.merges st /\
      App.previewOpen st' = App.previewOpen st
  end.
Proof.
  unfold App.executeMerge.
  destruct (perform h App.GetActiveTable) as [h0|].
  - destruct (mergeLoop_issued endFieldId (App.merges st) h0)
      as [[rest Hrest] Hok].
    destruct (App.mergeLoop Host perform endFieldId h0 (App.merges st))
      as [[h' issued] ok]. cbn [fst snd] in *.
    destruct ok; cbn [App.processing App.merges App.previewOpen].
    + split; [reflexivity|]. split.
      * exists rest. rewrite Hrest. reflexivity.
      * rewrite (Hok eq_refl). repeat split.
    + split; [reflexivity|]. split.
      * exists rest. rewrite Hrest. reflexivity.
      * split; reflexivity.
  - cbn [App.processing App.merges App.previewOpen].
    split; [reflexivity|]. split; [|split; reflexivity].
    exists (App.plan endFieldId (App.merges st)). reflexivity.
Qed.

End ExecuteMergeFacts.

(** A rejected deletion stops the loop after the update of the base
    record has been made. *)
Example executeMerge_partial :
  App.executeMerge nat App.pickyHost "end" 0%nat
    {| App.previewOpen := true; App.merges := [sampleProposal];
       App.processing := false |}
  = (2%nat,
     [App.GetActiveTable; App.SetRecord "A" "end" 1200000;
      App.DeleteRecords ["B"]],
     {| App.previewOpen := true; App.merges := [sampleProposal];
        App.processing := false |},
     App.MessageError).
Proof. reflexivity. Qed.

Lemma plan_of_merged (endFieldId : string) (ps : list MergeProposal) :
  Forall (fun p => exists k, EmittedFor k p) ps ->
  App.plan endFieldId ps
  = flat_map (fun p => [App.SetRecord (baseRecordId p) endFieldId (newEnd p);
                        App.DeleteRecords (recordsToDelete p)]) ps.
Proof.
  induction 1 as [|p ps [k Hp] _ IH]; [reflexivity|].
  unfold App.plan in *. cbn [flat_map]. rewrite IH. f_equal.
  apply EmittedFor_shape in Hp.
  destruct Hp as (r0 & r1 & rest & _ & _ & _ & _ & Hd & _).
  unfold App.callsFor. rewrite Hd. reflexivity.
Qed.

(** X15.  For the proposals the planner returns, the guard on
    [recordsToDelete] never skips the deletion: the plan of
    [executeMerge] is, for each proposal in turn, one update of the base
    record's end field followed by one deletion of a non-empty list; and
    the end time written is the end of one of the merged records. *)
Theorem executeMerge_plan (LocalTZA : Z -> Z) (records : list IRecord)
  (ps : list MergeProposal) (endFieldId : string) :
  calculateMerges LocalTZA records = Normal ps ->
  App.plan endFieldId ps
  = flat_map (fun p => [App.SetRecord (baseRecordId p) endFieldId (newEnd p);
                        App.DeleteRecords (recordsToDelete p)]) ps /\
  (forall p, In p ps ->
     recordsToDelete p <> [] /\
     In (newEnd p) (map end_ (originalRecords p))).
Proof.
  intros Hc. pose proof (calculateMerges_shapes _ _ _ Hc) as Hs.
  split; [apply plan_of_merged, Hs|].
  intros p Hp. rewrite Forall_forall in Hs. destruct (Hs p Hp) as [k He].
  apply EmittedFor_shape in He.
  destruct He as (r0 & r1 & rest & Ho & _ & _ & He & Hd & _).
  split; [rewrite Hd; discriminate|].
  rewrite Ho, He.
  apply (proj1 (maximum_spec _ _ (maxEnd_maximum r0 (r1 :: rest)))).
Qed.

Lemma executeMerge_plan_witness :
  calculateMerges (fixedZone 0) sampleRecords = Normal [sampleProposal] /\
  App.plan "end" [sampleProposal]
  = [App.SetRecord "A" "end" 1200000; App.DeleteRecords ["B"]].
Proof.
  split; [reflexivity|].
  exact (proj1 (executeMerge_plan (fixedZone 0) sampleRecords
                  [sampleProposal] "end" eq_refl)).
Defined.

Lemma plan_ids (endFieldId : string) (ps : list MergeProposal) :
  Forall (fun p => exists k, EmittedFor k p) ps ->
  flat_map App.callIds (App.plan endFieldId ps) = touchedIds ps.
Proof.
  intros Hs. rewrite (plan_of_merged endFieldId ps Hs).
  clear Hs. induction ps as [|p ps IH]; simpl; [reflexivity|].
  rewrite IH. reflexivity.
Qed.

(** X16.  When the analysed records have pairwise different ids, no record
    id is named twice in the plan of [executeMerge]: a record is updated
    or deleted at most once, and a record that is updated is not deleted. *)
Theorem executeMerge_touches_once (LocalTZA : Z -> Z)
  (records : list IRecord) (ps : list MergeProposal) (endFieldId : string) :
  NoDup (map id records) ->
  calculateMerges LocalTZA records = Normal ps ->
  NoDup (flat_map App.callIds (App.plan endFieldId ps)).
Proof.
  intros Hnd Hc. pose proof (calculateMerges_shapes _ _ _ Hc) as Hs.
  rewrite (plan_ids endFieldId ps Hs), (touchedIds_contributing ps Hs).
  destruct (calculateMerges_contributing _ _ _ Hc) as [rest H].
  apply (Permutation_map id) in H. rewrite map_app in H.
  apply Permutation_sym in H. apply (Permutation_NoDup H) in Hnd.
  apply NoDup_app_remove_r in Hnd. exact Hnd.
Qed.

Lemma executeMerge_touches_once_witness :
  NoDup (map id mixedRecords) /\
  calculateMerges (fixedZone 0) mixedRecords = Normal [sampleProposal] /\
  NoDup (flat_map App.callIds (App.plan "end" [sampleProposal])).
Proof.
  assert (Hnd : NoDup (map id mixedRecords)).
  { simpl. repeat constructor; simpl; intuition discriminate. }
  split; [exact Hnd|]. split; [reflexivity|].
  apply (executeMerge_touches_once (fixedZone 0) mixedRecords
           [sampleProposal] "end"); [exact Hnd | reflexivity].
Defined.

(** ** In front of the planner: the filter of [handlePreview] *)

Lemma validRecords_In (raw : list App.RawRecord) (r : IRecord) :
  In r (App.validRecords raw) ->
  exists x,
    In x raw /\ App.rawId x = id r /\
    App.rawStart x = Some (start r) /\ App.rawEnd x = Some (end_ r) /\
    App.rawGroupKeys x = groupKeys r /\ App.rawDuration x = duration r /\
    start r <> 0 /\ end_ r <> 0.
Proof.
  induction raw as [|x raw IH]; simpl; [contradiction|].
  assert (Hrest : In r (App.validRecords raw) ->
            exists x0, In x0 (x :: raw) /\ App.rawId x0 = id r /\
              App.rawStart x0 = Some (start r) /\
              App.rawEnd x0 = Some (end_ r) /\
              App.rawGroupKeys x0 = groupKeys r /\
              App.rawDuration x0 = duration r /\
              start r <> 0 /\ end_ r <> 0).
  { intros H. destruct (IH H) as (x0 & Hin & Hrest). exists x0.
    split; [right; exact Hin | exact Hrest]. }
  destruct (App.rawStart x) as [s|] eqn:Es; [|exact Hrest].
  destruct (App.rawEnd x) as [e|] eqn:Ee; [|exact Hrest].
  destruct (negb (s =? 0) && negb (e =? 0)) eqn:E; [|exact Hrest].
  intros [<-|H]; [|exact (Hrest H)].
  apply andb_true_iff in E. destruct E as [E1 E2].
  apply negb_true_iff in E1, E2. apply Z.eqb_neq in E1, E2.
  exists x. simpl. repeat split; try assumption. left; reflexivity.
Qed.

(** X17.  Behind the filter of [handlePreview], every record of every
    proposal comes from a fetched row whose start and end cells are both
    present and not zero, and the [newStart] and [newEnd] of a proposal are
    not zero either: [executeMerge] never writes an empty end time. *)
Theorem preview_uses_valid_rows (LocalTZA : Z -> Z)
  (raw : list App.RawRecord) (ps : list MergeProposal) (p : MergeProposal) :
  calculateMerges LocalTZA (App.validRecords raw) = Normal ps -> In p ps ->
  (forall r, In r (originalRecords p) ->
     exists x,
       In x raw /\ App.rawId x = id r /\
       App.truthy (App.rawStart x) = true /\
       App.truthy (App.rawEnd x) = true /\
       App.rawStart x = Some (start r) /\ App.rawEnd x = Some (end_ r)) /\
  newStart p <> 0 /\ newEnd p <> 0.
Proof.
  intros Hc Hp.
  destruct (calculateMerges_contributing _ _ _ Hc) as [unused Hperm].
  assert (Hvalid : forall r, In r (originalRecords p) ->
            In r (App.validRecords raw)).
  { intros r Hr. apply (Permutation_in _ Hperm), in_or_app. left.
    apply in_flat_map. exists p. split; assumption. }
  destruct (calculateMerges_origin _ _ _ _ Hc Hp) as (k & _ & He).
  apply EmittedFor_shape in He.
  destruct He as (r0 & r1 & rest & Ho & _ & Hs & He & _).
  split; [|split].
  - intros r Hr. destruct (validRecords_In raw r (Hvalid r Hr))
      as (x & Hin & Hid & Hst & Hen & _ & _ & Hs0 & He0).
    exists x. unfold App.truthy. rewrite Hst, Hen.
    repeat split; try assumption.
    + apply negb_true_iff, Z.eqb_neq, Hs0.
    + apply negb_true_iff, Z.eqb_neq, He0.
  - rewrite Hs.
    assert (H0 : In r0 (originalRecords p)) by (rewrite Ho; left; reflexivity).
    destruct (validRecords_In raw r0 (Hvalid r0 H0))
      as (_ & _ & _ & _ & _ & _ & _ & Hs0 & _). exact Hs0.
  - pose proof (maximum_spec _ _ (maxEnd_maximum r0 (r1 :: rest))) as [Hin _].
    rewrite He. apply in_map_iff in Hin. destruct Hin as (r & <- & Hr).
    rewrite <- Ho in Hr.
    destruct (validRecords_In raw r (Hvalid r Hr))
      as (_ & _ & _ & _ & _ & _ & _ & _ & He0). exact He0.
Qed.

Lemma preview_uses_valid_rows_witness :
  calculateMerges (fixedZone 0) (App.validRecords App.sampleRaw)
    = Normal [sampleProposal] /\
  In sampleProposal [sampleProposal] /\
  newStart sampleProposal <> 0 /\ newEnd sampleProposal <> 0.
Proof.
  split; [reflexivity|]. split; [left; reflexivity|].
  apply (preview_uses_valid_rows (fixedZone 0) App.sampleRaw
           [sampleProposal] sampleProposal); [reflexivity | left; reflexivity].
Defined.

(** ** The preview table *)

Lemma NoDup_heads {A B : Type} (f : A -> B) (g : A -> list B) (l : list A) :
  NoDup (flat_map (fun a => f a :: g a) l) -> NoDup (map f l).
Proof.
  induction l as [|a l IH]; simpl; intros H; [constructor|].
  apply NoDup_cons_iff in H. destruct H as [Hnotin H].
  apply NoDup_app_remove_l in H. constructor; [|apply IH, H].
  intros Hin. apply Hnotin. apply in_or_app. right.
  apply in_map_iff in Hin. destruct Hin as (a' & Ha' & Hin').
  apply in_flat_map. exists a'. split; [exact Hin'|].
  left. exact Ha'.
Qed.

(** X18.  The preview table is safe on the planner's output: the "Group"
    cell, which reads [originalRecords[0]], never throws; the "Count" cell
    shows the number of deleted records plus one; and when the analysed
    records have pairwise different ids the row keys ([baseRecordId]) are
    pairwise different. *)
Theorem preview_table_safe (LocalTZA : Z -> Z) (records : list IRecord)
  (ps : list MergeProposal) :
  calculateMerges LocalTZA records = Normal ps ->
  (forall p, In p ps ->
     (exists text, App.renderGroup p = Normal text) /\
     App.renderCount p = S (List.length (recordsToDelete p))) /\
  (NoDup (map id records) -> NoDup (map baseRecordId ps)).
Proof.
  intros Hc. pose proof (calculateMerges_shapes _ _ _ Hc) as Hs. split.
  - intros p Hp. rewrite Forall_forall in Hs. destruct (Hs p Hp) as [k He].
    apply EmittedFor_shape in He.
    destruct He as (r0 & r1 & rest & Ho & _ & _ & _ & Hd & _).
    unfold App.renderGroup, App.renderCount. rewrite Ho, Hd. split.
    + eexists. reflexivity.
    + simpl. rewrite length_map. reflexivity.
  - intros Hnd.
    apply (NoDup_heads baseRecordId recordsToDelete).
    change (NoDup (touchedIds ps)).
    rewrite (touchedIds_contributing ps Hs).
    destruct (calculateMerges_contributing _ _ _ Hc) as [rest H].
    apply (Permutation_map id) in H. rewrite map_app in H.
    apply Permutation_sym in H. apply (Permutation_NoDup H) in Hnd.
    apply NoDup_app_remove_r in Hnd. exact Hnd.
Qed.

Lemma preview_table_safe_witness :
  calculateMerges (fixedZone 0) sampleRecords = Normal [sampleProposal] /\
  App.renderGroup sampleProposal = Normal "X" /\
  App.renderCount sampleProposal = 2%nat.
Proof.
  split; [reflexivity|].
  destruct (proj1 (preview_table_safe (fixedZone 0) sampleRecords
                     [sampleProposal] eq_refl)
              sampleProposal (or_introl eq_refl)) as [_ Hcount].
  split; [reflexivity | exact Hcount].
Defined.

(** ** A chain of touching records *)

Lemma groupAll_one_key {R : Type} (keyOf : R -> string) (k : string)
  (rs : list R) :
  forall bucket,
    Forall (fun r => keyOf r = k) rs ->
    groupAll keyOf rs [(k, bucket)] = Normal [(k, bucket ++ rs)].
Proof.
  induction rs as [|r rs IH]; simpl; intros bucket Hk.
  - rewrite app_nil_r. reflexivity.
  - apply Forall_cons_iff in Hk. destruct Hk as [Hr Hk].
    unfold groupStep. simpl. rewrite Hr, !String.eqb_refl. simpl.
    rewrite ?String.eqb_refl. rewrite IH by exact Hk.
    rewrite <- app_assoc. reflexivity.
Qed.

Lemma absorb_all (rest : list IRecord) :
  forall p,
    fold_left absorb rest p
    = {| baseRecordId := baseRecordId p;
         newStart := newStart p;
         newEnd := fold_left (fun m r => Z.max m (end_ r)) rest (newEnd p);
         recordsToDelete := recordsToDelete p ++ map id rest;
         originalRecords := originalRecords p ++ rest;
         validation := validation p |}.
Proof.
  induction rest as [|r rest IH]; simpl; intros p.
  - rewrite !app_nil_r. destruct p; reflexivity.
  - rewrite IH. simpl. rewrite <- !app_assoc. reflexivity.
Qed.

Lemma loop_absorbs_chain (LocalTZA : Z -> Z) (r0 : IRecord)
  (rest : list IRecord) :
  forall ps p,
    newStart p = start r0 ->
    chained LocalTZA r0 (newEnd p) rest ->
    fold_left (loopBody LocalTZA) rest (ps, Some p)
    = (ps, Some (fold_left absorb rest p)).
Proof.
  induction rest as [|r rest IH]; simpl; intros ps p Hs Hc; [reflexivity|].
  destruct Hc as (Hgap & Hday & Hc).
  assert (Hseq : isSequential p r = true)
    by (unfold isSequential; apply Z.ltb_lt, Hgap).
  assert (Hsame : isSameDay LocalTZA p r = true)
    by (unfold isSameDay; rewrite Hs, Hday; apply DateString_eqb_refl).
  rewrite Hseq, Hsame. simpl. apply IH; [exact Hs | exact Hc].
Qed.

(** X19.  The tool's main case: when all records belong to one group
    (whose joined key is not inherited from [Object.prototype]) and, taken
    in order of start, each one after the first starts on the first one's
    local day and less than 1000 units from the greatest end before it, the
    planner returns exactly one proposal, which keeps the first record and
    deletes all the others. *)
Theorem touching_chain_merges (LocalTZA : Z -> Z) (records : list IRecord)
  (r0 r1 : IRecord) (rest : list IRecord) :
  inherited (groupKey r0) = false ->
  Forall (fun r => groupKey r = groupKey r0) records ->
  sortByStart start records = r0 :: r1 :: rest ->
  chained LocalTZA r0 (end_ r0) (r1 :: rest) ->
  calculateMerges LocalTZA records
  = Normal [finalizeProposal (wholeRun r0 (r1 :: rest))].
Proof.
  intros Hinh Hkey Hsort Hchain. unfold calculateMerges.
  destruct records as [|x records]; [discriminate|].
  apply Forall_cons_iff in Hkey. destruct Hkey as [Hx Hkey].
  cbn [groupAll]. unfold groupStep. cbn [ownLookup].
  rewrite Hx, Hinh. cbn [app].
  rewrite (groupAll_one_key groupKey (groupKey r0)) by exact Hkey.
  rewrite objectValues_single. cbn [fold_left app].
  unfold processGroup. rewrite Hsort.
  change (fold_left (loopBody LocalTZA) (r0 :: r1 :: rest) ([], None))
    with (fold_left (loopBody LocalTZA) (r1 :: rest)
            ([], Some (newProposal r0))).
  rewrite (loop_absorbs_chain LocalTZA r0 (r1 :: rest) [] (newProposal r0));
    [|reflexivity | exact Hchain].
  rewrite absorb_all. unfold pushIfMerged. simpl. reflexivity.
Qed.

Lemma touching_chain_merges_witness :
  inherited (groupKey sampleA) = false /\
  Forall (fun r => groupKey r = groupKey sampleA) [sampleB; sampleA] /\
  sortByStart start [sampleB; sampleA] = sampleA :: sampleB :: [] /\
  chained (fixedZone 0) sampleA (end_ sampleA) [sampleB] /\
  calculateMerges (fixedZone 0) [sampleB; sampleA]
  = Normal [finalizeProposal (wholeRun sampleA [sampleB])].
Proof.
  assert (Hk : Forall (fun r => groupKey r = groupKey sampleA)
                 [sampleB; sampleA]) by (repeat constructor).
  assert (Hc : chained (fixedZone 0) sampleA (end_ sampleA) [sampleB])
    by (simpl; repeat split).
  split; [reflexivity|]. split; [exact Hk|]. split; [reflexivity|].
  split; [exact Hc|].
  exact (touching_chain_merges (fixedZone 0) [sampleB; sampleA] sampleA
           sampleB [] eq_refl Hk eq_refl Hc).
Defined.

(** ** The duration check *)

Lemma abutting_sum (rest : list IRecord) :
  forall r0,
    abutting (r0 :: rest) ->
    Zsum (durations (r0 :: rest)) = maxEnd r0 rest - start r0.
Proof.
  induction rest as [|r1 rest IH]; intros r0 Hab.
  - destruct Hab as (Hd & _). unfold maxEnd. simpl. rewrite Hd. simpl. lia.
  - destruct Hab as (Hd & Hle & Hnext & Hab).
    specialize (IH r1 Hab).
    change (durations (r0 :: r1 :: rest))
      with ((match duration r0 with Some (Num d) => [d] | _ => [] end)
            ++ durations (r1 :: rest)).
    rewrite Hd. cbn [app Zsum fold_right].
    change (fold_right Z.add 0 (durations (r1 :: rest)))
      with (Zsum (durations (r1 :: rest))).
    rewrite IH. unfold maxEnd. cbn [fold_left].
    destruct Hab as (_ & Hle1 & _).
    replace (Z.max (end_ r0) (end_ r1)) with (end_ r1) by lia. lia.
Qed.

Lemma abutting_hasDuration (l : list IRecord) :
  abutting l -> forallb hasDuration l = true.
Proof.
  induction l as [|r l IH]; simpl; [reflexivity|].
  intros (Hd & _ & _ & Hab). unfold hasDuration at 1. rewrite Hd.
  apply IH, Hab.
Qed.

(** X20.  The duration check balances on clean data: when the records of a
    returned proposal follow one another without gap or overlap and each
    carries a duration equal to its length, the proposal has a validation
    whose [originalSum] equals its [newDuration]. *)
Theorem validation_balances (LocalTZA : Z -> Z) (records : list IRecord)
  (ps : list MergeProposal) (p : MergeProposal) :
  calculateMerges LocalTZA records = Normal ps -> In p ps ->
  abutting (originalRecords p) ->
  exists v, validation p = Some v /\ originalSum v = newDuration v.
Proof.
  intros Hc Hp Hab.
  destruct (calculateMerges_origin _ _ _ _ Hc Hp) as (k & _ & He).
  apply EmittedFor_shape in He.
  destruct He as (r0 & r1 & rest & Ho & _ & Hs & He & _ & _ & _ & Hv).
  rewrite (abutting_hasDuration _ Hab) in Hv.
  eexists. split; [exact Hv|]. simpl.
  rewrite Ho in *. rewrite (abutting_sum _ _ Hab), Hs, He. reflexivity.
Qed.

Lemma validation_balances_witness :
  calculateMerges (fixedZone 0) [abutA; abutB] = Normal [abutProposal] /\
  In abutProposal [abutProposal] /\
  abutting (originalRecords abutProposal) /\
  exists v, validation abutProposal = Some v /\ originalSum v = newDuration v.
Proof.
  assert (Hab : abutting (originalRecords abutProposal)).
  { simpl. repeat split; discriminate. }
  split; [reflexivity|]. split; [left; reflexivity|]. split; [exact Hab|].
  exact (validation_balances (fixedZone 0) [abutA; abutB] [abutProposal]
           abutProposal eq_refl (or_introl eq_refl) Hab).
Defined.

(** ** The order of the rows does not matter *)

Lemma NoDup_map_inj {A B : Type} (f : A -> B) (l : list A) (x y : A) :
  NoDup (map f l) -> In x l -> In y l -> f x = f y -> x = y.
Proof.
  induction l as [|a l IH]; simpl; intros Hnd Hx Hy Hf; [contradiction|].
  apply NoDup_cons_iff in Hnd. destruct Hnd as [Hnotin Hnd].
  destruct Hx as [<-|Hx], Hy as [<-|Hy].
  - reflexivity.
  - exfalso. apply Hnotin. rewrite Hf. apply in_map, Hy.
  - exfalso. apply Hnotin. rewrite <- Hf. apply in_map, Hx.
  - apply IH; assumption.
Qed.

Lemma filter_perm {A : Type} (f : A -> bool) (l l' : list A) :
  Permutation l l' -> Permutation (filter f l) (filter f l').
Proof.
  induction 1 as [|x l l' _ IH|x y l|l l' l'' _ IH1 _ IH2]; simpl.
  - reflexivity.
  - destruct (f x); [apply perm_skip, IH | exact IH].
  - destruct (f x), (f y); try reflexivity. apply perm_swap.
  - etransitivity; eassumption.
Qed.

(** Two sorted arrangements of the same records coincide when no two of
    the records start together. *)
Lemma sorted_perm_eq {R : Type} (startOf : R -> Z) (l : list R) :
  forall l',
    StronglySorted (leStart startOf) l ->
    StronglySorted (leStart startOf) l' ->
    Permutation l l' ->
    NoDup (map startOf l) ->
    l = l'.
Proof.
  induction l as [|a l IH]; intros l' Hs Hs' Hp Hnd.
  - apply Permutation_nil in Hp. subst. reflexivity.
  - destruct l' as [|b l'];
      [apply Permutation_sym, Permutation_nil in Hp; discriminate|].
    apply StronglySorted_inv in Hs, Hs'.
    destruct Hs as [Hs Ha], Hs' as [Hs' Hb].
    rewrite Forall_forall in Ha, Hb.
    assert (Hab : a = b).
    { assert (Hain : In a (b :: l'))
        by (apply (Permutation_in _ Hp); left; reflexivity).
      assert (Hbin : In b (a :: l))
        by (apply (Permutation_in _ (Permutation_sym Hp)); left; reflexivity).
      destruct Hain as [->|Hain]; [reflexivity|].
      destruct Hbin as [<-|Hbin]; [reflexivity|].
      apply (NoDup_map_inj startOf (a :: l)); try assumption.
      - left; reflexivity.
      - right; exact Hbin.
      - specialize (Ha b Hbin). specialize (Hb a Hain).
        unfold leStart in *. lia. }
    subst b. f_equal. apply Permutation_cons_inv in Hp.
    apply IH; try assumption.
    simpl in Hnd. apply NoDup_cons_iff in Hnd. apply Hnd.
Qed.

Lemma sortByStart_perm_eq {R : Type} (startOf : R -> Z) (l l' : list R) :
  Permutation l l' -> NoDup (map startOf l) ->
  sortByStart startOf l = sortByStart startOf l'.
Proof.
  intros Hp Hnd. apply (sorted_perm_eq startOf).
  - apply sortByStart_sorted.
  - apply sortByStart_sorted.
  - rewrite !sortByStart_perm. exact Hp.
  - apply (Permutation_NoDup (l := map startOf l)); [|exact Hnd].
    apply Permutation_map, Permutation_sym, sortByStart_perm.
Qed.

Lemma processGroup_sorted_only (LocalTZA : Z -> Z) (b b' : list IRecord) :
  sortByStart start b = sortByStart start b' ->
  processGroup LocalTZA [] b = processGroup LocalTZA [] b'.
Proof. intros H. unfold processGroup. rewrite H. reflexivity. Qed.

(** The returned proposals, up to their order, are those of the buckets
    of the keys that occur in the input. *)
Lemma calculateMerges_by_keys (LocalTZA : Z -> Z) (records : list IRecord)
  (ps : list MergeProposal) :
  calculateMerges LocalTZA records = Normal ps ->
  exists keys,
    NoDup keys /\
    (forall k, In k keys <-> exists r, In r records /\ groupKey r = k) /\
    Permutation ps
      (flat_map (fun k => processGroup LocalTZA []
                   (filter (fun r => String.eqb (groupKey r) k) records))
                keys).
Proof.
  unfold calculateMerges.
  destruct (groupAll groupKey records []) as [groups|e] eqn:G; [|discriminate].
  intros [= <-].
  apply (groupAll_Grouped groupKey records []) in G; [|apply Grouped_nil].
  destruct G as (Hnd & Hcov & Hfil). simpl in Hcov, Hfil.
  exists (map fst groups). split; [exact Hnd|]. split.
  - intros k. split.
    + intros Hk. apply in_map_iff in Hk. destruct Hk as ([k' b] & <- & Hin).
      simpl. destruct (Hfil _ _ Hin) as [Hb Hne].
      destruct b as [|r b]; [contradiction|].
      assert (Hr : In r (filter (fun r => String.eqb (groupKey r) k') records))
        by (rewrite <- Hb; left; reflexivity).
      apply filter_In in Hr. destruct Hr as [Hr Hk].
      exists r. split; [exact Hr | apply String.eqb_eq, Hk].
    + intros (r & Hr & <-). apply Hcov, Hr.
  - rewrite processGroups_flat. simpl.
    rewrite (Permutation_flat_map _ (objectValues_perm groups)).
    clear Hnd Hcov.
    induction groups as [|[k b] groups IH]; simpl; [reflexivity|].
    destruct (Hfil k b (or_introl eq_refl)) as [<- _].
    apply Permutation_app_head, IH.
    intros k' b' Hin. apply Hfil. right. exact Hin.
Qed.

(** X21.  The order of the input rows does not matter when no two records
    of a group start together: any rearrangement of the input yields the
    same proposals, up to the order in which they are listed. *)
Theorem row_order_irrelevant (LocalTZA : Z -> Z)
  (records records' : list IRecord) (ps : list MergeProposal) :
  Permutation records records' ->
  NoDup (map (fun r => (groupKey r, start r)) records) ->
  calculateMerges LocalTZA records = Normal ps ->
  exists ps',
    calculateMerges LocalTZA records' = Normal ps' /\ Permutation ps ps'.
Proof.
  intros Hperm Hnd Hc.
  assert (Hsafe : Forall (fun r => inherited (groupKey r) = false) records).
  { apply Forall_forall. intros r Hr.
    destruct (inherited (groupKey r)) eqn:E; [|reflexivity]. exfalso.
    assert (Hthrow : calculateMerges LocalTZA records = Throw TypeError).
    { unfold calculateMerges.
      rewrite (proj2 (groupAll_throws_iff groupKey records [] (Forall_nil _)));
        [reflexivity|].
      apply Exists_exists. exists r. split; assumption. }
    rewrite Hthrow in Hc. discriminate. }
  assert (Hsafe' : Forall (fun r => inherited (groupKey r) = false) records')
    by (rewrite <- Hperm; exact Hsafe).
  destruct (calculateMerges_returns LocalTZA records' Hsafe') as [ps' Hc'].
  exists ps'. split; [exact Hc'|].
  destruct (calculateMerges_by_keys _ _ _ Hc) as (keys & Hk1 & Hk2 & Hk3).
  destruct (calculateMerges_by_keys _ _ _ Hc') as (keys' & Hk1' & Hk2' & Hk3').
  rewrite Hk3, Hk3'.
  assert (Hkeys : Permutation keys keys').
  { apply NoDup_Permutation; try assumption.
    intros k. rewrite Hk2, Hk2'. split; intros (r & Hr & <-); exists r;
      (split; [|reflexivity]).
    - apply (Permutation_in _ Hperm), Hr.
    - apply (Permutation_in _ (Permutation_sym Hperm)), Hr. }
  rewrite <- (Permutation_flat_map _ Hkeys).
  assert (Hext : forall k,
            processGroup LocalTZA []
              (filter (fun r => String.eqb (groupKey r) k) records)
            = processGroup LocalTZA []
                (filter (fun r => String.eqb (groupKey r) k) records')).
  { intros k. apply processGroup_sorted_only, sortByStart_perm_eq.
    - apply filter_perm, Hperm.
    - clear -Hnd. induction records as [|r records IH]; simpl; [constructor|].
      simpl in Hnd. apply NoDup_cons_iff in Hnd. destruct Hnd as [Hnotin Hnd].
      destruct (String.eqb (groupKey r) k) eqn:E; [|apply IH, Hnd].
      simpl. constructor; [|apply IH, Hnd].
      intros Hin. apply Hnotin. apply in_map_iff in Hin.
      destruct Hin as (r' & Hst & Hr'). apply filter_In in Hr'.
      destruct Hr' as [Hr' Hk']. apply String.eqb_eq in E, Hk'.
      apply in_map_iff. exists r'. split; [|exact Hr'].
      rewrite Hst, Hk', E. reflexivity. }
  rewrite (flat_map_ext _ _ Hext). reflexivity.
Qed.

Lemma row_order_irrelevant_witness :
  Permutation sampleRecords [sampleA; sampleB; sampleC] /\
  NoDup (map (fun r => (groupKey r, start r)) sampleRecords) /\
  calculateMerges (fixedZone 0) sampleRecords = Normal [sampleProposal] /\
  exists ps',
    calculateMerges (fixedZone 0) [sampleA; sampleB; sampleC] = Normal ps' /\
    Permutation [sampleProposal] ps'.
Proof.
  assert (Hp : Permutation sampleRecords [sampleA; sampleB; sampleC]).
  { unfold sampleRecords.
    apply perm_trans with [sampleB; sampleC; sampleA]; [apply perm_swap|].
    apply perm_trans with [sampleB; sampleA; sampleC];
      [apply perm_skip, perm_swap | apply perm_swap]. }
  assert (Hnd : NoDup (map (fun r => (groupKey r, start r)) sampleRecords)).
  { simpl. repeat constructor; simpl; intuition discriminate. }
  split; [exact Hp|]. split; [exact Hnd|]. split; [reflexivity|].
  exact (row_order_irrelevant (fixedZone 0) sampleRecords
           [sampleA; sampleB; sampleC] [sampleProposal] Hp Hnd eq_refl).
Defined.
